(** * setuptools/wheel.py: wheel file names, tags, and installation as an egg

    A shallow embedding of [setuptools/wheel.py].  Python [str] values are
    [string]s over [ascii] characters (so [\d] is the class 0..9 and [lower()]
    folds A..Z), file-system paths handed to [os] are lists of path components,
    and code that raises returns a [result]. *)

From Stdlib Require Import Ascii String List NArith Lia.
From stdpp Require Import base tactics option list strings sorting gmap.

Set Warnings "-register-all".
Local Open Scope string_scope.
Local Open Scope list_scope.

(** ** Exceptions and results *)

Inductive errno := ENOENT | EEXIST | ENOTDIR | EISDIR | ENOTEMPTY | EINVAL.

Definition path := list string.

Inductive pre_letter := PreA | PreB | PreRC.

(** [-Infinity], an ordinary value, [Infinity]: the sentinels of
    [packaging.version._cmpkey]. *)
Inductive ext (A : Type) := NegInf | Fin (a : A) | PosInf.
Arguments NegInf {A}.
Arguments Fin {A} a.
Arguments PosInf {A}.

Record Version := mkVersion {
  epoch : N;
  release : list N;
  pre : option (pre_letter * N);
  post : option N;
  dev : option N
}.

Inductive parsed_version :=
  | PEP440 (v : Version)
  | LegacyVersion (text : string).

Inductive exn :=
  | InvalidWheelName (filename : string)
      (* ValueError('invalid wheel name: %r' % filename) *)
  | DistInfoNotFound
      (* ValueError("unsupported wheel format. .dist-info not found") *)
  | UnsupportedWheelVersion (v : parsed_version)
      (* ValueError('unsupported wheel format version: %s' % wheel_version) *)
  | KeyError (name : string)
  | TypeError
  | OSError (e : errno) (p : path)
  | AssertionError
  | RecursionError.

Inductive result (A : Type) :=
  | Ok (a : A)
  | Raise (e : exn).
Arguments Ok {A} a.
Arguments Raise {A} e.

(** ** Characters and strings *)

Definition newline : ascii := "010"%char.
Definition slash : ascii := "/"%char.

Definition is_newline (c : ascii) : bool := Ascii.eqb c newline.

(** [\d]: the digits 0 to 9, which are all the decimal digits there are among
    the characters of a byte string, and among the code points below 256 of
    a text string. *)
Definition is_digit (c : ascii) : bool :=
  (48 <=? N_of_ascii c)%N && (N_of_ascii c <=? 57)%N.

Fixpoint str_mem (c : ascii) (s : string) : bool :=
  match s with
  | EmptyString => false
  | String a s' => Ascii.eqb a c || str_mem c s'
  end.

(** [s.startswith(p)] *)
Fixpoint startswith (p s : string) : bool :=
  match p with
  | EmptyString => true
  | String a p' =>
      match s with
      | EmptyString => false
      | String c s' => Ascii.eqb a c && startswith p' s'
      end
  end.

(** [s.endswith(p)] *)
Fixpoint endswith (p s : string) : bool :=
  String.eqb p s ||
  match s with
  | EmptyString => false
  | String _ s' => endswith p s'
  end.

(** [s.split(sep)] for a one-character separator: never the empty list. *)
Fixpoint split (sep : ascii) (s : string) : list string :=
  match s with
  | EmptyString => [EmptyString]
  | String c s' =>
      if Ascii.eqb c sep then EmptyString :: split sep s'
      else match split sep s' with
           | h :: t => String c h :: t
           | [] => [String c EmptyString]
           end
  end.

(** [posixpath.basename(p)]: [p[p.rfind('/') + 1:]]. *)
Fixpoint basename (p : string) : string :=
  match p with
  | EmptyString => EmptyString
  | String _ p' => if str_mem slash p then basename p' else p
  end.

(** [p[:p.rfind('/') + 1]] *)
Fixpoint path_head (p : string) : string :=
  match p with
  | EmptyString => EmptyString
  | String c p' => if str_mem slash p then String c (path_head p') else EmptyString
  end.

Fixpoint all_slashes (s : string) : bool :=
  match s with
  | EmptyString => true
  | String c s' => Ascii.eqb c slash && all_slashes s'
  end.

(** [s.rstrip('/')] *)
Fixpoint rstrip_slash (s : string) : string :=
  match s with
  | EmptyString => EmptyString
  | String c s' =>
      match rstrip_slash s' with
      | EmptyString => if Ascii.eqb c slash then EmptyString else String c EmptyString
      | r => String c r
      end
  end.

(** [posixpath.dirname(p)] *)
Definition dirname (p : string) : string :=
  let head := path_head p in
  if negb (String.eqb head "") && negb (all_slashes head)
  then rstrip_slash head else head.

(** ** The file-name pattern [WHEEL_NAME]

    The pattern is matched the way [re] does it, by backtracking: a lazy
    quantifier first tries its continuation and consumes one more character
    only when that fails; the optional build group is tried before it is
    skipped.  [.] is any character but a newline, and [$] holds at the end of
    the text or just before a newline that ends it. *)

Record Groups := mkGroups {
  g_project_name : string;
  g_version : string;
  g_build : option string;
  g_py_version : string;
  g_abi : string;
  g_platform : string
}.

Section Backtracking.
Context {R : Type}.

(** [.*?] followed by [k]; [acc] is the text the group holds so far. *)
Fixpoint lazy_dots (k : string -> string -> option R) (acc s : string)
  : option R :=
  match k acc s with
  | Some r => Some r
  | None =>
      match s with
      | EmptyString => None
      | String c s' =>
          if is_newline c then None
          else lazy_dots k (acc +:+ String c EmptyString) s'
      end
  end.

(** [.+?] followed by [k] *)
Definition lazy_dots1 (k : string -> string -> option R) (s : string)
  : option R :=
  match s with
  | EmptyString => None
  | String c s' =>
      if is_newline c then None else lazy_dots k (String c EmptyString) s'
  end.

(** [\d.*?] followed by [k] *)
Definition digit_lazy_dots (k : string -> string -> option R) (s : string)
  : option R :=
  match s with
  | EmptyString => None
  | String c s' =>
      if is_digit c then lazy_dots k (String c EmptyString) s' else None
  end.
End Backtracking.

(** A literal: the rest of [s] after [l], when [s] starts with [l]. *)
Fixpoint lit (l s : string) : option string :=
  match l with
  | EmptyString => Some s
  | String a l' =>
      match s with
      | EmptyString => None
      | String c s' => if Ascii.eqb a c then lit l' s' else None
      end
  end.

(** [$] *)
Definition at_end (s : string) : bool :=
  match s with
  | EmptyString => true
  | String c EmptyString => is_newline c
  | _ => false
  end.

(** [-(?P<py_version>.+?)-(?P<abi>.+?)-(?P<platform>.+?))\.whl$] *)
Definition wheel_name_tags (project version : string) (build : option string)
    (s : string) : option Groups :=
  s ← lit "-" s;
  lazy_dots1 (fun py s =>
    s ← lit "-" s;
    lazy_dots1 (fun abi s =>
      s ← lit "-" s;
      lazy_dots1 (fun plat s =>
        s ← lit ".whl" s;
        if at_end s
        then Some (mkGroups project version build py abi plat)
        else None) s) s) s.

(** [((-(?P<build>\d.*?))?-...]: the group is greedy, so the build tag is
    tried first. *)
Definition wheel_name_build (project version : string) (s : string)
    : option Groups :=
  match (s' ← lit "-" s;
         digit_lazy_dots
           (fun build s'' => wheel_name_tags project version (Some build) s'')
           s') with
  | Some g => Some g
  | None => wheel_name_tags project version None s
  end.

(** [^(?P<project_name>.+?)-(?P<version>\d.*?)...] *)
Definition WHEEL_NAME (s : string) : option Groups :=
  lazy_dots1 (fun project s =>
    s ← lit "-" s;
    digit_lazy_dots (fun version s => wheel_name_build project version s) s) s.

(** ** class Wheel *)

Record Wheel := mkWheel {
  filename : string;
  project_name : string;
  version : string;
  build : option string;
  py_version : string;
  abi : string;
  platform : string
}.

(** [Wheel.__init__] *)
Definition Wheel_init (filename : string) : result Wheel :=
  match WHEEL_NAME (basename filename) with
  | None => Raise (InvalidWheelName filename)
  | Some g =>
      Ok (mkWheel filename (g_project_name g) (g_version g) (g_build g)
            (g_py_version g) (g_abi g) (g_platform g))
  end.

(** ** Tags and compatibility *)

Definition tag : Type := string * string * string.

(** [Wheel.tags]: [itertools.product] of the three split fields, the first
    field outermost. *)
Definition tags (w : Wheel) : list tag :=
  flat_map (fun py =>
    flat_map (fun a =>
      map (fun pl => (py, a, pl)) (split "." (platform w)))
      (split "." (abi w)))
    (split "." (py_version w)).

(** [next((True for t in ts if t in supported_tags), False)], together with
    the tags the generator was asked for, in order: each one is tested once
    for membership and the first hit ends the iteration. *)
Fixpoint next_supported (supported_tags : list tag) (ts : list tag)
    : bool * list tag :=
  match ts with
  | [] => (false, [])
  | t :: ts' =>
      if bool_decide (t ∈ supported_tags) then (true, [t])
      else let '(b, seen) := next_supported supported_tags ts' in (b, t :: seen)
  end.

(** [Wheel.is_compatible]; [supported_tags] is what
    [pep425tags.get_supported()] returns on the host. *)
Definition is_compatible (supported_tags : list tag) (w : Wheel) : bool :=
  fst (next_supported supported_tags (tags w)).

(** The tags [is_compatible] tests before it returns. *)
Definition is_compatible_tested (supported_tags : list tag) (w : Wheel)
    : list tag :=
  snd (next_supported supported_tags (tags w)).

(** ** Egg name *)

(** Modelled from the spec: [pkg_resources.Distribution.egg_name] is not part
    of [wheel.py]; the spec gives the name as
    ["{projectName}-{version}-{platformDescriptor}"], the descriptor and its
    hyphen left out when the distribution has no platform. *)
Definition Distribution_egg_name (project_name version : string)
    (platform : option string) : string :=
  project_name +:+ "-" +:+ version +:+
  match platform with
  | None => ""
  | Some p => "-" +:+ p
  end.

(** [Wheel.egg_name]; [get_platform] is [distutils.util.get_platform()]. *)
Definition egg_name (get_platform : string) (w : Wheel) : string :=
  Distribution_egg_name (project_name w) (version w)
    (if String.eqb (platform w) "any" then None else Some get_platform)
  +:+ ".egg".

(** ** Finding the [.dist-info] directory *)

Definition is_name_sep (c : ascii) : bool :=
  Ascii.eqb c "-" || Ascii.eqb c "_" || Ascii.eqb c ".".

Definition lower (c : ascii) : ascii :=
  let n := N_of_ascii c in
  if (65 <=? n)%N && (n <=? 90)%N then ascii_of_N (n + 32) else c.

(** Modelled from the spec: [packaging.utils.canonicalize_name] is not part of
    [wheel.py]; it normalizes case and separators:
    [re.sub(r"[-_.]+", "-", name).lower()]. *)
Fixpoint canonicalize_name (name : string) : string :=
  match name with
  | EmptyString => EmptyString
  | String c s' =>
      if is_name_sep c then
        match s' with
        | String c' _ =>
            if is_name_sep c' then canonicalize_name s'
            else String "-" (canonicalize_name s')
        | EmptyString => String "-" EmptyString
        end
      else String (lower c) (canonicalize_name s')
  end.

(** The test of [get_dist_info] on the directory part of one member. *)
Definition is_dist_info (project_name dirname : string) : bool :=
  endswith ".dist-info" dirname &&
  startswith (canonicalize_name project_name) (canonicalize_name dirname).

(** [Wheel.get_dist_info], over [zf.namelist()]. *)
Fixpoint get_dist_info (project_name : string) (namelist : list string)
    : result string :=
  match namelist with
  | [] => Raise DistInfoNotFound
  | member :: rest =>
      let dirname := dirname member in
      if is_dist_info project_name dirname then Ok dirname
      else get_dist_info project_name rest
  end.

(** ** Versions

    Modelled from the spec: [pkg_resources.parse_version] is not part of
    [wheel.py].  The spec has the format version parsed "as a version number"
    and ordered so that [2.0dev0] lies strictly below [2.0]; that is the order
    of PEP 440, which [packaging.version] implements by comparing the keys
    built below.  Local version labels are left out. *)

Definition lexico (c1 c2 : comparison) : comparison :=
  match c1 with
  | Eq => c2
  | _ => c1
  end.

Fixpoint compare_release (a b : list N) : comparison :=
  match a, b with
  | [], [] => Eq
  | [], _ :: _ => Lt
  | _ :: _, [] => Gt
  | x :: a', y :: b' => lexico (x ?= y)%N (compare_release a' b')
  end.

(** The release without its trailing zeros. *)
Fixpoint strip_zeros (l : list N) : list N :=
  match l with
  | [] => []
  | x :: l' =>
      match strip_zeros l' with
      | [] => if (x =? 0)%N then [] else [x]
      | r => x :: r
      end
  end.

Definition compare_ext {A} (cmp : A -> A -> comparison) (a b : ext A)
    : comparison :=
  match a, b with
  | NegInf, NegInf => Eq
  | NegInf, _ => Lt
  | _, NegInf => Gt
  | PosInf, PosInf => Eq
  | PosInf, _ => Gt
  | _, PosInf => Lt
  | Fin x, Fin y => cmp x y
  end.

Definition pre_rank (l : pre_letter) : N :=
  match l with
  | PreA => 0
  | PreB => 1
  | PreRC => 2
  end.

Definition compare_pre (a b : pre_letter * N) : comparison :=
  lexico (pre_rank a.1 ?= pre_rank b.1)%N (a.2 ?= b.2)%N.

Definition pre_key (v : Version) : ext (pre_letter * N) :=
  match pre v, post v, dev v with
  | None, None, Some _ => NegInf
  | None, _, _ => PosInf
  | Some p, _, _ => Fin p
  end.

Definition post_key (v : Version) : ext N :=
  match post v with
  | None => NegInf
  | Some n => Fin n
  end.

Definition dev_key (v : Version) : ext N :=
  match dev v with
  | None => PosInf
  | Some n => Fin n
  end.

Definition compare_version (v w : Version) : comparison :=
  lexico (epoch v ?= epoch w)%N
    (lexico (compare_release (strip_zeros (release v)) (strip_zeros (release w)))
       (lexico (compare_ext compare_pre (pre_key v) (pre_key w))
          (lexico (compare_ext N.compare (post_key v) (post_key w))
             (compare_ext N.compare (dev_key v) (dev_key w))))).

(** A legacy version has epoch -1 and so lies below every PEP 440 version;
    two legacy versions are compared by their text. *)
Definition compare_parsed (a b : parsed_version) : comparison :=
  match a, b with
  | PEP440 v, PEP440 w => compare_version v w
  | LegacyVersion _, PEP440 _ => Lt
  | PEP440 _, LegacyVersion _ => Gt
  | LegacyVersion s, LegacyVersion t => String.compare s t
  end.

Definition version_le (a b : parsed_version) : bool :=
  match compare_parsed a b with
  | Gt => false
  | _ => true
  end.

Definition version_lt (a b : parsed_version) : bool :=
  match compare_parsed a b with
  | Lt => true
  | _ => false
  end.

Definition digit_value (c : ascii) : N := (N_of_ascii c - 48)%N.

Fixpoint read_digits (s : string) (acc : N) : N * string :=
  match s with
  | EmptyString => (acc, EmptyString)
  | String c s' =>
      if is_digit c then read_digits s' (10 * acc + digit_value c)%N
      else (acc, s)
  end.

(** [[0-9]+] *)
Definition read_number (s : string) : option (N * string) :=
  match s with
  | String c _ => if is_digit c then Some (read_digits s 0%N) else None
  | EmptyString => None
  end.

(** [[0-9]+(?:\.[0-9]+)*] *)
Fixpoint read_release (fuel : nat) (s : string) : option (list N * string) :=
  match fuel with
  | O => None
  | S fuel' =>
      '(n, rest) ← read_number s;
      match rest with
      | String "." rest' =>
          match read_release fuel' rest' with
          | Some (l, r) => Some (n :: l, r)
          | None => Some ([n], rest)
          end
      | _ => Some ([n], rest)
      end
  end.

(** [(a|b|rc)[0-9]+], when present *)
Definition read_pre (s : string) : option (pre_letter * N) * string :=
  let try (l : pre_letter) (word : string) :=
    rest ← lit word s; '(n, r) ← read_number rest; Some (Some (l, n), r) in
  default (None, s)
    (match try PreA "a" with
     | Some x => Some x
     | None =>
         match try PreB "b" with
         | Some x => Some x
         | None => try PreRC "rc"
         end
     end).

(** [\.post[0-9]+], when present *)
Definition read_post (s : string) : option N * string :=
  default (None, s)
    (rest ← lit ".post" s; '(n, r) ← read_number rest; Some (Some n, r)).

(** [\.?dev[0-9]*], when present; a missing number is 0 *)
Definition read_dev (s : string) : option N * string :=
  let after_dot := default s (lit "." s) in
  match lit "dev" after_dot with
  | Some rest =>
      match read_number rest with
      | Some (n, r) => (Some n, r)
      | None => (Some 0%N, rest)
      end
  | None => (None, s)
  end.

(** The versions written [N(.N)*[{a|b|rc}N][.postN][[.]dev[N]]]. *)
Definition parse_pep440 (s : string) : option Version :=
  '(rel, s1) ← read_release (S (String.length s)) s;
  let '(pre, s2) := read_pre s1 in
  let '(post, s3) := read_post s2 in
  let '(dev, s4) := read_dev s3 in
  if String.eqb s4 "" then Some (mkVersion 0 rel pre post dev) else None.

(** [parse_version]: text that is no PEP 440 version gives a legacy version. *)
Definition parse_version (s : string) : parsed_version :=
  match parse_pep440 s with
  | Some v => PEP440 v
  | None => LegacyVersion s
  end.

(** [parse_version('1.0') <= wheel_version < parse_version('2.0dev0')] *)
Definition wheel_v1 (wheel_version : parsed_version) : bool :=
  version_le (parse_version "1.0") wheel_version &&
  version_lt wheel_version (parse_version "2.0dev0").

(** The format-version check of [_install_as_egg]. *)
Definition check_wheel_version (wheel_version : parsed_version) : result unit :=
  if negb (wheel_v1 wheel_version)
  then Raise (UnsupportedWheelVersion wheel_version)
  else Ok tt.

(** ** Requirements *)

(** A requirement as [wheel.py] uses it: its text without the marker, and the
    environment marker.  Modelled from the spec: [Requirement.__str__] is not
    part of [wheel.py]; a plain string, followed by the marker when there is
    one. *)
Record Requirement := mkRequirement {
  req_text : string;
  marker : option string
}.

Definition Requirement_str (req : Requirement) : string :=
  req_text req +:+
  match marker req with
  | None => ""
  | Some m => "; " +:+ m
  end.

(** The distribution object: [dist.requires(extras)] and [dist.extras]. *)
Record Dist := mkDist {
  requires : list string -> list Requirement;
  extras : list string
}.

(** [req.marker = None; return str(req)] *)
Definition raw_req (req : Requirement) : string :=
  Requirement_str (mkRequirement (req_text req) None).

(** [sorted(l)] for a list of strings: the order of [str] is [String.le], by
    code point and a proper prefix first. *)
Definition sorted (l : list string) : list string := merge_sort String.le l.

(** [list(sorted(map(raw_req, dist.requires())))] *)
Definition install_requires (dist : Dist) : list string :=
  sorted (map raw_req (requires dist [])).

(** [sorted(req for req in map(raw_req, dist.requires((extra,)))
            if req not in install_requires)] *)
Definition extra_requires (dist : Dist) (extra : string) : list string :=
  sorted (filter (fun req => req ∉ install_requires dist)
                 (map raw_req (requires dist [extra]))).

(** The dict comprehension over [dist.extras]; a later key replaces an
    earlier equal one. *)
Definition extras_require (dist : Dist) : gmap string (list string) :=
  foldl (fun m extra => <[extra := extra_requires dist extra]> m) ∅
        (extras dist).

(** ** The file system

    A tree of directories and files; a directory lists its entries in the
    order [os.listdir] and [os.walk] report them. *)

Inductive node :=
  | File (content : string)
  | Dir (entries : list (string * node)).

Definition is_dir (n : node) : bool :=
  match n with
  | Dir _ => true
  | File _ => false
  end.

Fixpoint assoc (x : string) (es : list (string * node)) : option node :=
  match es with
  | [] => None
  | (y, n) :: es' => if String.eqb x y then Some n else assoc x es'
  end.

Definition remove_entry (x : string) (es : list (string * node))
    : list (string * node) :=
  filter (fun e => e.1 ≠ x) es.

Definition add_entry (x : string) (n : node) (es : list (string * node))
    : list (string * node) :=
  remove_entry x es ++ [(x, n)].

Fixpoint set_entry (x : string) (n : node) (es : list (string * node))
    : list (string * node) :=
  match es with
  | [] => []
  | (y, m) :: es' =>
      if String.eqb x y then (y, n) :: es' else (y, m) :: set_entry x n es'
  end.

Fixpoint lookup_path (t : node) (p : path) : option node :=
  match p with
  | [] => Some t
  | x :: p' =>
      match t with
      | File _ => None
      | Dir es => c ← assoc x es; lookup_path c p'
      end
  end.

(** Rewrite the entries of the directory at [p]. *)
Fixpoint with_dir (p : path)
    (f : list (string * node) -> list (string * node)) (t : node)
    : option node :=
  match t with
  | File _ => None
  | Dir es =>
      match p with
      | [] => Some (Dir (f es))
      | x :: p' =>
          c ← assoc x es; c' ← with_dir p' f c; Some (Dir (set_entry x c' es))
      end
  end.

(** [os.path.split] on components: the parent and the last name. *)
Definition split_last (p : path) : option (path * string) :=
  match reverse p with
  | [] => None
  | x :: r => Some (reverse r, x)
  end.

Fixpoint is_prefix (p q : path) : bool :=
  match p, q with
  | [], _ => true
  | _ :: _, [] => false
  | x :: p', y :: q' => String.eqb x y && is_prefix p' q'
  end.

(** The calls that change the file system. *)
Inductive syscall :=
  | Mkdir (p : path)
  | Rmdir (p : path)
  | Unlink (p : path)
  | Rename (src dst : path)
  | WriteFile (p : path).

Record world := mkWorld {
  root : node;
  trace : list syscall     (* the changing calls made so far, oldest first *)
}.

(** A computation on the file system: it may raise, and what it did before
    raising stays done. *)
Definition M (A : Type) : Type := world -> result A * world.

Definition ret {A} (a : A) : M A := fun w => (Ok a, w).
Definition raise {A} (e : exn) : M A := fun w => (Raise e, w).
Definition bind {A B} (m : M A) (k : A -> M B) : M B :=
  fun w =>
    match m w with
    | (Ok a, w') => k a w'
    | (Raise e, w') => (Raise e, w')
    end.

Notation "'do' x <- m ; k" := (bind m (fun x => k))
  (at level 10, x name, m at level 100, k at level 200).
Notation "m >>> k" := (bind m (fun _ => k))
  (at level 90, right associativity).

(** [try: m except OSError: pass] *)
Definition try_OSError (m : M unit) : M unit :=
  fun w =>
    match m w with
    | (Raise (OSError _ _), w') => (Ok tt, w')
    | r => r
    end.

Definition lift {A} (r : result A) : M A := fun w => (r, w).
Definition get_root : M node := fun w => (Ok (root w), w).
Definition log (c : syscall) : M unit :=
  fun w => (Ok tt, mkWorld (root w) (trace w ++ [c])).
Definition put_root (oe : option node) (e : errno) (p : path) : M unit :=
  fun w =>
    match oe with
    | Some t => (Ok tt, mkWorld t (trace w))
    | None => (Raise (OSError e p), w)
    end.

Fixpoint mapM_ {A} (f : A -> M unit) (l : list A) : M unit :=
  match l with
  | [] => ret tt
  | a :: l' => f a >>> mapM_ f l'
  end.

(** *** The [os] calls

    The error number tells which check failed; a path that runs through a
    file is reported like a missing one. *)

(** [os.path.exists(p)] *)
Definition os_path_exists (p : path) : M bool :=
  do t <- get_root; ret (bool_decide (is_Some (lookup_path t p))).

(** [os.listdir(p)] *)
Definition os_listdir (p : path) : M (list string) :=
  do t <- get_root;
  match lookup_path t p with
  | None => raise (OSError ENOENT p)
  | Some (File _) => raise (OSError ENOTDIR p)
  | Some (Dir es) => ret (map fst es)
  end.

(** [open(p).read()] *)
Definition read_file (p : path) : M string :=
  do t <- get_root;
  match lookup_path t p with
  | None => raise (OSError ENOENT p)
  | Some (Dir _) => raise (OSError EISDIR p)
  | Some (File s) => ret s
  end.

(** Take the entry named by [p] out of its directory. *)
Definition detach (p : path) (t : node) : option node :=
  '(parent, name) ← split_last p; with_dir parent (remove_entry name) t.

(** Put [n] under the name [p], instead of what is there. *)
Definition attach (p : path) (n : node) (t : node) : option node :=
  '(parent, name) ← split_last p; with_dir parent (add_entry name n) t.

(** [os.mkdir(p)] *)
Definition os_mkdir (p : path) : M unit :=
  log (Mkdir p) >>>
  do t <- get_root;
  match lookup_path t p, split_last p with
  | Some _, _ | _, None => raise (OSError EEXIST p)
  | None, Some (parent, _) =>
      match lookup_path t parent with
      | None => raise (OSError ENOENT p)
      | Some (File _) => raise (OSError ENOTDIR p)
      | Some (Dir _) => put_root (attach p (Dir []) t) ENOENT p
      end
  end.

(** [os.rmdir(p)] *)
Definition os_rmdir (p : path) : M unit :=
  log (Rmdir p) >>>
  do t <- get_root;
  match lookup_path t p with
  | None => raise (OSError ENOENT p)
  | Some (File _) => raise (OSError ENOTDIR p)
  | Some (Dir (_ :: _)) => raise (OSError ENOTEMPTY p)
  | Some (Dir []) => put_root (detach p t) EINVAL p
  end.

(** [os.unlink(p)] *)
Definition os_unlink (p : path) : M unit :=
  log (Unlink p) >>>
  do t <- get_root;
  match lookup_path t p with
  | None => raise (OSError ENOENT p)
  | Some (Dir _) => raise (OSError EISDIR p)
  | Some (File _) => put_root (detach p t) ENOENT p
  end.

(** [os.rename(src, dst)]: a file replaces a file, a directory replaces an
    empty directory, and a directory does not move into itself. *)
Definition os_rename (src dst : path) : M unit :=
  log (Rename src dst) >>>
  do t <- get_root;
  match lookup_path t src with
  | None => raise (OSError ENOENT src)
  | Some n =>
      if bool_decide (src = dst) then ret tt
      else if is_prefix src dst then raise (OSError EINVAL src)
      else
        match lookup_path t dst, n with
        | Some (File _), Dir _ => raise (OSError ENOTDIR dst)
        | Some (Dir _), File _ => raise (OSError EISDIR dst)
        | Some (Dir (_ :: _)), Dir _ => raise (OSError ENOTEMPTY dst)
        | _, _ => put_root (detach src t ≫= attach dst n) ENOENT dst
        end
  end.

(** Write a file, replacing an old one. *)
Definition write_file (p : path) (content : string) : M unit :=
  log (WriteFile p) >>>
  do t <- get_root;
  match lookup_path t p with
  | Some (Dir _) => raise (OSError EISDIR p)
  | _ => put_root (attach p (File content) t) ENOENT p
  end.

Definition parent (p : path) : path :=
  match split_last p with
  | Some (q, _) => q
  | None => []
  end.

(** The directories [os.makedirs(p)] has to look at, outermost first. *)
Definition ancestors (p : path) : list path :=
  map (fun n => take n p) (seq 1 (length p - 1)).

(** [os.makedirs(p)]: the missing ancestors, then [p] itself. *)
Definition os_makedirs (p : path) : M unit :=
  mapM_ (fun q => do e <- os_path_exists q; if e then ret tt else os_mkdir q)
        (ancestors p) >>>
  os_mkdir p.

(** The loop of [os.removedirs]: remove the ancestors, innermost first, as
    long as that works. *)
Fixpoint prune (ps : list path) : M unit :=
  match ps with
  | [] => ret tt
  | q :: ps' =>
      fun w =>
        match os_rmdir q w with
        | (Ok _, w') => prune ps' w'
        | (Raise _, w') => (Ok tt, w')
        end
  end.

(** [os.removedirs(p)] *)
Definition os_removedirs (p : path) : M unit :=
  os_rmdir p >>> prune (reverse (ancestors p) ++ [[]]).

(** [os.renames(old, new)] *)
Definition os_renames (old new : path) : M unit :=
  (do e <- os_path_exists (parent new);
   if negb e then os_makedirs (parent new) else ret tt) >>>
  os_rename old new >>>
  try_OSError (os_removedirs (parent old)).

(** [os.path.isdir(p)] *)
Definition os_path_isdir (p : path) : M bool :=
  do t <- get_root;
  ret (match lookup_path t p with Some (Dir _) => true | _ => false end).

(** [os.walk(top)], top down and with [onerror=None]: each directory is read
    when the walk reaches it, [body] is the loop body and returns [dirnames]
    as it left it, and the walk descends into those names only.  What cannot
    be read as a directory is passed over.  [limit] bounds the depth, as the
    interpreter's recursion limit does. *)
Fixpoint os_walk (limit : nat)
    (body : path -> list string -> list string -> M (list string))
    (top : path) : M unit :=
  match limit with
  | O => raise RecursionError
  | S limit' =>
      do t <- get_root;
      match lookup_path t top with
      | Some (Dir es) =>
          let dirs := map fst (filter (fun e => is_dir e.2) es) in
          let nondirs := map fst (filter (fun e => negb (is_dir e.2)) es) in
          do dirnames <- body top dirs nondirs;
          mapM_ (fun d : string => os_walk limit' body (top ++ [d])) dirnames
      | _ => ret tt
      end
  end.

(** [os.path.relpath(p, start)] for [p] under [start] *)
Definition relpath (p start : path) : path := drop (length start) p.

(** ** [unpack] *)

(** The loop over [reversed(list(enumerate(dirnames)))]. *)
Fixpoint unpack_dirs (dst_dir dirpath subdir : path)
    (todo : list (nat * string)) (dirnames : list string)
    : M (list string) :=
  match todo with
  | [] => ret dirnames
  | (n, d) :: todo' =>
      let src := dirpath ++ [d] in
      let dst := dst_dir ++ subdir ++ [d] in
      do e <- os_path_exists dst;
      if negb e then
        os_renames src dst >>>
        unpack_dirs dst_dir dirpath subdir todo' (delete n dirnames)
      else unpack_dirs dst_dir dirpath subdir todo' dirnames
  end.

Definition unpack_move (src_dir dst_dir : path)
    (dirpath : path) (dirnames filenames : list string) : M (list string) :=
  let subdir := relpath dirpath src_dir in
  mapM_ (fun f : string =>
           os_renames (dirpath ++ [f]) (dst_dir ++ subdir ++ [f]))
        filenames >>>
  unpack_dirs dst_dir dirpath subdir (reverse (imap pair dirnames)) dirnames.

Definition unpack_cleanup
    (dirpath : path) (dirnames filenames : list string) : M (list string) :=
  (if bool_decide (filenames = []) then ret tt else raise AssertionError) >>>
  os_rmdir dirpath >>>
  ret dirnames.

(** [unpack(src_dir, dst_dir)] *)
Definition unpack (limit : nat) (src_dir dst_dir : path) : M unit :=
  os_walk limit (unpack_move src_dir dst_dir) src_dir >>>
  os_walk limit unpack_cleanup src_dir.

(** ** Installing as an egg *)

(** A zip archive: its members in archive order, names and contents. *)
Record ZipFile := mkZipFile { members : list (string * string) }.

Definition namelist (zf : ZipFile) : list string := map fst (members zf).

Fixpoint assoc_last (name : string) (ms : list (string * string))
    : option string :=
  match ms with
  | [] => None
  | (n, c) :: ms' =>
      match assoc_last name ms' with
      | Some c' => Some c'
      | None => if String.eqb name n then Some c else None
      end
  end.

(** [zf.open(name).read()]: the last member of that name. *)
Definition zf_read (zf : ZipFile) (name : string) : result string :=
  match assoc_last name (members zf) with
  | Some content => Ok content
  | None => Raise (KeyError name)
  end.

(** The components of a path text; empty components and [.] name no step. *)
Definition components (s : string) : path :=
  filter (fun x => x ≠ "" ∧ x ≠ ".") (split "/" s).

(** [os.path.join(p, s)] *)
Definition os_path_join (p : path) (s : string) : path :=
  if startswith "/" s then components s else p ++ components s.

(** [posixpath.join(a, b)] *)
Definition posixpath_join (a b : string) : string :=
  if startswith "/" b then b
  else if String.eqb a "" || endswith "/" a then a +:+ b
  else a +:+ "/" +:+ b.

(** [ZipFile._extract_member]: the member name loses its empty, [.] and [..]
    components; missing upper directories are made; a name ending in [/] is a
    directory. *)
Definition extract_member (targetpath : path) (member : string * string)
    : M unit :=
  let arcname :=
    filter (fun x => x ≠ "" ∧ x ≠ "." ∧ x ≠ "..") (split "/" member.1) in
  let targetpath := targetpath ++ arcname in
  let upperdirs := parent targetpath in
  (do e <- os_path_exists upperdirs;
   if negb e then os_makedirs upperdirs else ret tt) >>>
  if endswith "/" member.1 then
    do d <- os_path_isdir targetpath;
    if negb d then os_mkdir targetpath else ret tt
  else write_file targetpath member.2.

(** [zf.extractall(path)] *)
Definition extractall (zf : ZipFile) (p : path) : M unit :=
  mapM_ (extract_member p) (members zf).

(** What the installation takes from outside [wheel.py]. *)
Record Host := mkHost {
  (** [email.parser.Parser().parsestr(text).get(name)] *)
  header_get : string -> string -> option string;
  (** the distribution read from the text of [METADATA] *)
  read_dist : string -> Dist;
  (** the text [write_requirements] makes of the requirements *)
  requires_txt : list string -> gmap string (list string) -> string;
  recursion_limit : nat;
  (** [six.PY3]: the text of a file is a string of code points *)
  PY3 : bool
}.

(** [cmd.write_or_delete_file(what, filename, data)] of
    [setuptools.command.egg_info], which [write_requirements] ends with:
    text that is not empty is written; with no text a file that is there is
    deleted, and nothing is written. *)
Definition write_or_delete_file (filename : path) (data : string) : M unit :=
  if negb (String.eqb data "") then write_file filename data
  else
    do e <- os_path_exists filename;
    if e then os_unlink filename else ret tt.

(** The scripts of the data directory, lines 160 to 176. *)
Definition relocate_scripts (destination_eggdir dist_data : path) : M unit :=
  let dist_data_scripts := dist_data ++ ["scripts"] in
  do e <- os_path_exists dist_data_scripts;
  if e then
    let egg_info_scripts := destination_eggdir ++ ["EGG-INFO"; "scripts"] in
    os_mkdir egg_info_scripts >>>
    do entries <- os_listdir dist_data_scripts;
    mapM_ (fun entry : string =>
             if endswith ".pyc" entry
             then os_unlink (dist_data_scripts ++ [entry])
             else os_rename (dist_data_scripts ++ [entry])
                            (egg_info_scripts ++ [entry]))
          entries >>>
    os_rmdir dist_data_scripts
  else ret tt.

(** The characters [text.split()] splits at: tab to carriage return and the
    space for a byte string; for a string of code points (Python 3) also the
    separators 0x1c to 0x1f, the next-line character 0x85 and the no-break
    space 0xa0. *)
Definition is_space (py3 : bool) (c : ascii) : bool :=
  let n := N_of_ascii c in
  ((9 <=? n)%N && (n <=? 13)%N) || (n =? 32)%N ||
  (py3 && (((28 <=? n)%N && (n <=? 31)%N) || (n =? 133)%N || (n =? 160)%N)).

(** [text.split()] *)
Fixpoint split_whitespace (py3 : bool) (text : string) (word : string)
    : list string :=
  let flush := if String.eqb word "" then [] else [word] in
  match text with
  | EmptyString => flush
  | String c text' =>
      if is_space py3 c then flush ++ split_whitespace py3 text' ""
      else split_whitespace py3 text' (word +:+ String c EmptyString)
  end.

(** A path as a text names it, and whether the text ends in a slash: it
    then names a directory or nothing. *)
Definition named_path : Type := path * bool.

(** One argument more of [os.path.join(a, *p)]: a component that begins with
    a slash starts again from the root, any other is added after a slash;
    an empty one leaves the slash only.  A component may hold slashes and so
    name several steps. *)
Definition os_path_join_step (a : named_path) (b : string) : named_path :=
  if startswith "/" b then (components b, endswith "/" b)
  else (a.1 ++ components b, String.eqb b "" || endswith "/" b).

(** [os.path.join(a, *p)] *)
Definition os_path_join_all (a : path) (p : list string) : named_path :=
  foldl os_path_join_step (a, false) p.

(** What [os.path.exists] answers for a named path in a tree: a file is not
    found under a name that ends in a slash. *)
Definition exists_in (t : node) (a : named_path) : bool :=
  match lookup_path t a.1 with
  | Some (Dir _) => true
  | Some (File _) => negb a.2
  | None => false
  end.

(** [os.path.exists(p)] for a named path *)
Definition os_path_exists_named (a : named_path) : M bool :=
  do t <- get_root; ret (exists_in t a).

Definition NAMESPACE_PACKAGE_INIT : string :=
  "try:" +:+ String newline
  "    __import__('pkg_resources').declare_namespace(__name__)" +:+
  String newline "except ImportError:" +:+ String newline
  "    __path__ = __import__('pkgutil').extend_path(__path__, __name__)" +:+
  String newline "".

(** [Wheel._fix_namespace_packages] *)
Definition _fix_namespace_packages (host : Host)
    (egg_info destination_eggdir : path) : M unit :=
  let namespace_packages := egg_info ++ ["namespace_packages.txt"] in
  do e <- os_path_exists namespace_packages;
  if e then
    do text <- read_file namespace_packages;
    mapM_ (fun mod_ : string =>
             let mod_dir :=
               os_path_join_all destination_eggdir (split "." mod_) in
             let mod_init := mod_dir.1 ++ ["__init__.py"] in
             do d <- os_path_exists_named mod_dir;
             do i <- os_path_exists mod_init;
             if d && negb i then write_file mod_init NAMESPACE_PACKAGE_INIT
             else ret tt)
          (split_whitespace (PY3 host) text "")
  else ret tt.

(** [Wheel._install_as_egg] *)
Definition _install_as_egg (host : Host) (self : Wheel)
    (destination_eggdir : path) (zf : ZipFile) : M unit :=
  let dist_basename := project_name self +:+ "-" +:+ version self in
  do dist_info <- lift (get_dist_info (project_name self) (namelist zf));
  let dist_data := dist_basename +:+ ".data" in
  do wheel_metadata <- lift (zf_read zf (posixpath_join dist_info "WHEEL"));
  (* Check wheel format version is supported. *)
  do wheel_version <-
    lift (match header_get host wheel_metadata "Wheel-Version" with
          | Some v => Ok (parse_version v)
          | None => Raise TypeError
          end);
  lift (check_wheel_version wheel_version) >>>
  (* Extract to target directory. *)
  os_mkdir destination_eggdir >>>
  extractall zf destination_eggdir >>>
  (* Convert metadata. *)
  let dist_info := os_path_join destination_eggdir dist_info in
  do metadata <- read_file (dist_info ++ ["METADATA"]);
  let dist := read_dist host metadata in
  let install_requires := install_requires dist in
  let extras_require := extras_require dist in
  let egg_info := destination_eggdir ++ ["EGG-INFO"] in
  os_rename dist_info egg_info >>>
  os_rename (egg_info ++ ["METADATA"]) (egg_info ++ ["PKG-INFO"]) >>>
  write_or_delete_file (egg_info ++ ["requires.txt"])
    (requires_txt host install_requires extras_require) >>>
  (* Move data entries to their correct location. *)
  let dist_data := os_path_join destination_eggdir dist_data in
  relocate_scripts destination_eggdir dist_data >>>
  mapM_ (fun d : string =>
           let subdir := dist_data ++ [d] in
           do e <- os_path_exists subdir;
           if e then unpack (recursion_limit host) subdir destination_eggdir
           else ret tt)
        ["data"; "headers"; "purelib"; "platlib"] >>>
  (do e <- os_path_exists dist_data;
   if e then os_rmdir dist_data else ret tt) >>>
  _fix_namespace_packages host egg_info destination_eggdir.

(** ** The file-name grammar

    [{projectName}-{version}[-{buildTag}]-{pyVersionTag}-{abiTag}-{platformTag}.whl],
    followed by [tail]. *)

Definition build_text (build : option string) : string :=
  match build with
  | None => ""
  | Some b => "-" +:+ b
  end.

Definition wheel_text (g : Groups) (tail : string) : string :=
  g_project_name g +:+ "-" +:+ g_version g +:+ build_text (g_build g) +:+
  "-" +:+ g_py_version g +:+ "-" +:+ g_abi g +:+ "-" +:+ g_platform g +:+
  ".whl" +:+ tail.

Definition starts_with_digit (s : string) : Prop :=
  match s with
  | EmptyString => False
  | String c _ => is_digit c = true
  end.

(** The fields are runs of one or more characters; the version and the build
    tag begin with a digit. *)
Definition fields_ok (g : Groups) : Prop :=
  g_project_name g ≠ "" ∧ starts_with_digit (g_version g) ∧
  (∀ b, g_build g = Some b → starts_with_digit b) ∧
  g_py_version g ≠ "" ∧ g_abi g ≠ "" ∧ g_platform g ≠ "".

(** The grammar as the specification words it: any characters, and the match
    is anchored to the full basename. *)
Definition matches_grammar (basename : string) (g : Groups) : Prop :=
  basename = wheel_text g "" ∧ fields_ok g.

Definition no_newline (s : string) : Prop := str_mem newline s = false.

Definition fields_no_newline (g : Groups) : Prop :=
  no_newline (g_project_name g) ∧ no_newline (g_version g) ∧
  (∀ b, g_build g = Some b → no_newline b) ∧
  no_newline (g_py_version g) ∧ no_newline (g_abi g) ∧
  no_newline (g_platform g).

(** The grammar as the pattern has it: no field holds a newline, and one
    newline may follow the extension. *)
Definition matches_pattern (basename : string) (g : Groups) : Prop :=
  (basename = wheel_text g "" ∨ basename = wheel_text g (String newline "")) ∧
  fields_ok g ∧ fields_no_newline g.

Definition groups_of (w : Wheel) : Groups :=
  mkGroups (project_name w) (version w) (build w) (py_version w) (abi w)
           (platform w).

(** The part of a name after the version and the build tag. *)
Definition tags_text (py abi plat tail : string) : string :=
  "-" +:+ py +:+ "-" +:+ abi +:+ "-" +:+ plat +:+ ".whl" +:+ tail.

(** What may follow the extension. *)
Definition is_tail (tail : string) : Prop :=
  tail = "" ∨ tail = String newline "".

(** The first claim about [Wheel.__init__], as the specification words it:
    the fields follow the grammar on the whole basename, or the call raises
    and the basename has no reading by the grammar. *)
Definition init_follows_grammar (f : string) : Prop :=
  (∃ w, Wheel_init f = Ok w ∧ filename w = f ∧
        matches_grammar (basename f) (groups_of w)) ∨
  (Wheel_init f = Raise (InvalidWheelName f) ∧
   ∀ g, ¬ matches_grammar (basename f) g).

(** A directory name is top-level when it names no parent. *)
Definition top_level (d : string) : Prop := str_mem slash d = false.

(** What [get_dist_info] asks of the directory part of a member. *)
Definition qualifies (project_name d : string) : Prop :=
  (∃ t, d = t +:+ ".dist-info") ∧
  ∃ t, canonicalize_name d = canonicalize_name project_name +:+ t.

(** The claim about [get_dist_info], as the specification words it: the
    first top-level directory that qualifies, or the error when there is
    none. *)
Definition finds_first_top_level (project_name : string)
    (names : list string) : Prop :=
  match get_dist_info project_name names with
  | Ok d =>
      top_level d ∧ qualifies project_name d ∧
      ∃ l1 m l2, names = l1 ++ m :: l2 ∧ d = dirname m ∧
        Forall (λ m', ¬ (top_level (dirname m') ∧
                         qualifies project_name (dirname m'))) l1
  | Raise e =>
      e = DistInfoNotFound ∧
      Forall (λ m, ¬ (top_level (dirname m) ∧
                      qualifies project_name (dirname m))) names
  end.

(** Lines 100 to 116 of [_install_as_egg]: what is read from the archive
    before the file system is touched; the [.dist-info] directory when the
    archive passes. *)
Definition validate (host : Host) (self : Wheel) (zf : ZipFile)
    : result string :=
  match get_dist_info (project_name self) (namelist zf) with
  | Raise e => Raise e
  | Ok dist_info =>
      match zf_read zf (posixpath_join dist_info "WHEEL") with
      | Raise e => Raise e
      | Ok wheel_metadata =>
          match header_get host wheel_metadata "Wheel-Version" with
          | None => Raise TypeError
          | Some v =>
              match check_wheel_version (parse_version v) with
              | Raise e => Raise e
              | Ok _ => Ok dist_info
              end
          end
      end
  end.

(** The claim about the order of effects, as the specification words it:
    when discovery or the version check fails the destination directory has
    been created already, by the first and only changing call. *)
Definition created_before_validation (host : Host) (self : Wheel)
    (destination_eggdir : path) (zf : ZipFile) (w : world) : Prop :=
  ∀ e, validate host self zf = Raise e →
    let w' := (_install_as_egg host self destination_eggdir zf w).2 in
    trace w' = trace w ++ [Mkdir destination_eggdir] ∧
    is_Some (lookup_path (root w') destination_eggdir).

(** A computation only adds to the record of changing calls. *)
Definition appends {A} (m : M A) : Prop :=
  ∀ w, ∃ l, trace (m w).2 = trace w ++ l.

(** A host, a wheel and an archive with no [.dist-info] directory. *)
Definition example_host : Host :=
  mkHost (λ _ _, Some "1.0") (λ _, mkDist (λ _, []) []) (λ _ _, "") 100 true.

Definition example_wheel : Wheel :=
  mkWheel "foo-1.0-py2-none-any.whl" "foo" "1.0" None "py2" "none" "any".

Definition example_no_dist_info : ZipFile :=
  mkZipFile [("foo/__init__.py", "")].

(** A source directory whose only entry is an empty directory [pkg], and a
    destination that has a directory [pkg] already. *)
Definition example_empty_subdir : node :=
  Dir [("src", Dir [("pkg", Dir [])]); ("dst", Dir [("pkg", Dir [])])].

(** Two paths diverge when neither leads to the other. *)
Definition diverge (p q : path) : Prop :=
  is_prefix p q = false ∧ is_prefix q p = false.

Definition names (es : list (string * node)) : list string := map fst es.

(** The body of the loop over [os.listdir(dist_data_scripts)]. *)
Definition relocate_entry (dist_data_scripts egg_info_scripts : path)
    (entry : string) : M unit :=
  if endswith ".pyc" entry
  then os_unlink (dist_data_scripts ++ [entry])
  else os_rename (dist_data_scripts ++ [entry]) (egg_info_scripts ++ [entry]).

Definition not_pyc (e : string * node) : Prop := endswith ".pyc" e.1 = false.

#[global] Instance not_pyc_dec (e : string * node) : Decision (not_pyc e).
Proof. unfold not_pyc. apply _. Defined.

(** An egg directory after extraction and the renaming of the metadata: a
    script and its bytecode in the data directory. *)
Definition example_scripts_tree : node :=
  Dir [("egg",
        Dir [("EGG-INFO", Dir [("PKG-INFO", File "")]);
             ("foo-1.0.data",
              Dir [("scripts",
                    Dir [("run.pyc", File "bytecode");
                         ("run", File "script")])])])].

(** The distribution of the specification's example: the base requirement
    [a>=1], and with the extra [test] also [b], each under a marker. *)
Definition example_dist : Dist :=
  mkDist
    (λ extras,
       mkRequirement "a>=1" (Some "python_version >= '2.7'") ::
       (if bool_decide ("test" ∈ extras)
        then [mkRequirement "b" (Some "extra == 'test'")] else []))
    ["test"].

(** ** Further notions used by the properties *)

(** How often [c] occurs in [s]. *)
Fixpoint count_char (c : ascii) (s : string) : nat :=
  match s with
  | EmptyString => 0
  | String a s' => (if Ascii.eqb a c then 1 else 0) + count_char c s'
  end.

(** Every changing call a computation makes satisfies [P]. *)
Definition emits {A} (P : syscall → Prop) (m : M A) : Prop :=
  ∀ w, ∃ l, trace (m w).2 = trace w ++ l ∧ Forall P l.

(** The changing calls [unpack(src_dir, dst_dir)] may make: renaming from
    under the source to under the destination, making a directory on the
    way to the destination or under it, removing a directory on the way to
    the source or under it. *)
Definition unpack_call (src_dir dst_dir : path) (c : syscall) : Prop :=
  match c with
  | Rename a b => is_prefix src_dir a = true ∧ is_prefix dst_dir b = true
  | Mkdir q => is_prefix q dst_dir = true ∨ is_prefix dst_dir q = true
  | Rmdir q => is_prefix q src_dir = true ∨ is_prefix src_dir q = true
  | Unlink _ | WriteFile _ => False
  end.

(** The data directory of a wheel inside the egg directory. *)
Definition dist_data_dir (self : Wheel) (destination_eggdir : path) : path :=
  os_path_join destination_eggdir
    ((project_name self +:+ "-" +:+ version self) +:+ ".data").

(** The only files the installation may unlink: the entries of the scripts
    of the data directory whose names end in [.pyc], and the requirements
    file of the egg, which [write_requirements] deletes when there is nothing
    to write. *)
Definition install_unlink (self : Wheel) (destination_eggdir : path)
    (c : syscall) : Prop :=
  match c with
  | Unlink p =>
      (∃ entry,
         p = dist_data_dir self destination_eggdir ++ ["scripts"; entry] ∧
         endswith ".pyc" entry = true) ∨
      p = destination_eggdir ++ ["EGG-INFO"; "requires.txt"]
  | _ => True
  end.

(** The directory [_fix_namespace_packages] looks for a package in. *)
Definition mod_dir (destination_eggdir : path) (mod_ : string) : named_path :=
  os_path_join_all destination_eggdir (split "." mod_).

(** The body of the loop of [_fix_namespace_packages]. *)
Definition fix_namespace_package (destination_eggdir : path) (mod_ : string)
    : M unit :=
  let mod_dir := os_path_join_all destination_eggdir (split "." mod_) in
  let mod_init := mod_dir.1 ++ ["__init__.py"] in
  do d <- os_path_exists_named mod_dir;
  do i <- os_path_exists mod_init;
  if d && negb i then write_file mod_init NAMESPACE_PACKAGE_INIT
  else ret tt.

(** The only changing calls of [_fix_namespace_packages]: writing the
    initializer of a package, in the directory that the name of the package
    joined to the destination gives. *)
Definition writes_init (listed : list string) (destination_eggdir : path)
    (c : syscall) : Prop :=
  ∃ mod_,
    mod_ ∈ listed ∧
    c = WriteFile ((mod_dir destination_eggdir mod_).1 ++ ["__init__.py"]).

(** The names [_fix_namespace_packages] reads in [namespace_packages.txt]. *)
Definition namespace_packages (host : Host) (egg_info : path) (w : world)
    : list string :=
  match lookup_path (root w) (egg_info ++ ["namespace_packages.txt"]) with
  | Some (File text) => split_whitespace (PY3 host) text ""
  | _ => []
  end.

(** A name none of whose dotted parts begins with a slash. *)
Definition relative (mod_ : string) : Prop :=
  Forall (λ b, startswith "/" b = false) (split "." mod_).

(** What [_fix_namespace_packages] may do to what a path names: a file stays
    as it is, a directory stays a directory, and where there was nothing
    there is nothing or the initializer. *)
Definition evolves (before after : option node) : Prop :=
  match before with
  | Some (File c) => after = Some (File c)
  | Some (Dir _) => ∃ es, after = Some (Dir es)
  | None => after = None ∨ after = Some (File NAMESPACE_PACKAGE_INIT)
  end.

(** An egg directory with the package directory [ns], listed as the
    namespace package [ns.] and without an initializer. *)
Definition example_namespace_world : world :=
  mkWorld
    (Dir [("egg", Dir [("EGG-INFO",
                        Dir [("namespace_packages.txt", File "ns.")]);
                       ("ns", Dir [])])])
    [].

(** Fields as the builders of wheels write them: without a hyphen. *)
Definition no_hyphen (s : string) : Prop := str_mem "-" s = false.

Definition fields_no_hyphen (g : Groups) : Prop :=
  no_hyphen (g_project_name g) ∧ no_hyphen (g_version g) ∧
  (∀ b, g_build g = Some b → no_hyphen b) ∧
  no_hyphen (g_py_version g) ∧ no_hyphen (g_abi g) ∧
  no_hyphen (g_platform g).

(** What is left of a directory that [os.renames] has taken an entry out
    of: [os.removedirs] takes it away once it is empty. *)
Definition pruned (es : list (string * node)) : option node :=
  match es with
  | [] => None
  | _ => Some (Dir es)
  end.

(** A wheel's [purelib] with a module and a package, beside an egg
    directory that holds the metadata. *)
Definition example_unpack_world : world :=
  mkWorld
    (Dir [("purelib", Dir [("pkg", Dir [("__init__.py", File "")]);
                           ("mod.py", File "x = 1")]);
          ("egg", Dir [("EGG-INFO", Dir [])])])
    [].

(** * Properties *)

(** ** Strings *)

Lemma append_nil_r (s : string) : s +:+ "" = s.
Proof. induction s as [|c s IH]; [done|]. change (String c (s +:+ "") = String c s). by rewrite IH. Qed.

Lemma append_nil_l (s : string) : "" +:+ s = s.
Proof. reflexivity. Qed.

Lemma append_cons (c : ascii) (s t : string) :
  String c s +:+ t = String c (s +:+ t).
Proof. reflexivity. Qed.

Lemma append_assoc (s t u : string) : (s +:+ t) +:+ u = s +:+ t +:+ u.
Proof.
  induction s as [|c s IH]; [done|].
  rewrite !append_cons. by rewrite IH.
Qed.

Lemma append_snoc (s : string) (c : ascii) (t : string) :
  (s +:+ String c "") +:+ t = s +:+ String c t.
Proof. by rewrite append_assoc. Qed.

Lemma str_mem_append (c : ascii) (s t : string) :
  str_mem c (s +:+ t) = str_mem c s || str_mem c t.
Proof.
  induction s as [|a s IH]; [done|].
  rewrite append_cons. simpl. rewrite IH. by rewrite orb_assoc.
Qed.

Lemma no_newline_append (s t : string) :
  no_newline (s +:+ t) ↔ no_newline s ∧ no_newline t.
Proof. unfold no_newline. rewrite str_mem_append. apply orb_false_iff. Qed.

Lemma no_newline_cons (c : ascii) (s : string) :
  no_newline (String c s) ↔ is_newline c = false ∧ no_newline s.
Proof. unfold no_newline, is_newline. simpl. apply orb_false_iff. Qed.

Lemma is_digit_not_newline (c : ascii) : is_digit c = true → is_newline c = false.
Proof.
  unfold is_digit, is_newline. intros H.
  destruct (Ascii.eqb_spec c newline) as [->|]; [|done].
  by vm_compute in H.
Qed.

Lemma lit_Some (l s r : string) : lit l s = Some r ↔ s = l +:+ r.
Proof.
  revert s. induction l as [|a l IH]; intros s; simpl.
  - split; [by intros [= ->]|by intros ->].
  - destruct s as [|c s]; [done|].
    rewrite append_cons.
    destruct (Ascii.eqb_spec a c) as [->|Hne].
    + rewrite IH. split; [by intros ->|by intros [= ->]].
    + split; [done|]. intros [= ? _]. done.
Qed.

Lemma lit_append (l r : string) : lit l (l +:+ r) = Some r.
Proof. by apply lit_Some. Qed.

Lemma at_end_true (s : string) :
  at_end s = true ↔ s = "" ∨ s = String newline "".
Proof.
  destruct s as [|c [|d s]]; simpl.
  - split; [by left|done].
  - unfold is_newline. destruct (Ascii.eqb_spec c newline) as [->|Hc].
    + split; [by right|done].
    + split; [done|]. intros [?|[= ?]]; done.
  - split; [done|]. intros [?|?]; done.
Qed.

(** ** The lazy quantifiers *)

Section Backtracking_facts.
Context {R : Type}.
Implicit Types k : string → string → option R.

Lemma lazy_dots_Some k acc s r :
  lazy_dots k acc s = Some r →
  ∃ a b, s = a +:+ b ∧ no_newline a ∧ k (acc +:+ a) b = Some r.
Proof.
  revert acc. induction s as [|c s IH]; intros acc; simpl.
  - destruct (k acc "") eqn:Hk; [|done]. intros [= ->].
    exists "", "". split_and!; [done|done|by rewrite append_nil_r].
  - destruct (k acc (String c s)) eqn:Hk.
    + intros [= ->]. exists "", (String c s).
      split_and!; [done|done|by rewrite append_nil_r].
    + destruct (is_newline c) eqn:Hc; [done|]. intros H.
      apply IH in H as (a & b & -> & Ha & H).
      exists (String c a), b. rewrite append_snoc in H.
      split_and!; [done| by apply no_newline_cons |done].
Qed.

Lemma lazy_dots_None k acc s :
  lazy_dots k acc s = None →
  ∀ a b, s = a +:+ b → no_newline a → k (acc +:+ a) b = None.
Proof.
  revert acc. induction s as [|c s IH]; intros acc; simpl.
  - destruct (k acc "") eqn:Hk; [done|]. intros _ a b Hab _.
    destruct a; [|done]. rewrite append_nil_l in Hab. subst b.
    by rewrite append_nil_r.
  - destruct (k acc (String c s)) eqn:Hk; [done|].
    intros H a b Hab Ha. destruct a as [|c' a].
    + rewrite append_nil_l in Hab. subst b. by rewrite append_nil_r.
    + rewrite append_cons in Hab. injection Hab as <- ->.
      apply no_newline_cons in Ha as [Hc Ha]. rewrite Hc in H.
      rewrite <- append_snoc. by eapply IH.
Qed.

Lemma lazy_dots1_Some k s r :
  lazy_dots1 k s = Some r →
  ∃ a b, s = a +:+ b ∧ a ≠ "" ∧ no_newline a ∧ k a b = Some r.
Proof.
  destruct s as [|c s]; simpl; [done|].
  destruct (is_newline c) eqn:Hc; [done|]. intros H.
  apply lazy_dots_Some in H as (a & b & -> & Ha & H).
  exists (String c a), b. split_and!; [done|done| by apply no_newline_cons |done].
Qed.

Lemma lazy_dots1_None k s :
  lazy_dots1 k s = None →
  ∀ a b, s = a +:+ b → a ≠ "" → no_newline a → k a b = None.
Proof.
  intros H a b -> Hne Ha. destruct a as [|c a]; [done|].
  apply no_newline_cons in Ha as [Hc Ha].
  rewrite append_cons in H. simpl in H. rewrite Hc in H.
  by eapply (lazy_dots_None _ _ _ H a b).
Qed.

Lemma digit_lazy_dots_Some k s r :
  digit_lazy_dots k s = Some r →
  ∃ a b, s = a +:+ b ∧ starts_with_digit a ∧ no_newline a ∧ k a b = Some r.
Proof.
  destruct s as [|c s]; simpl; [done|].
  destruct (is_digit c) eqn:Hc; [|done]. intros H.
  apply lazy_dots_Some in H as (a & b & -> & Ha & H).
  exists (String c a), b. split_and!; [done|done| |done].
  apply no_newline_cons. split; [by apply is_digit_not_newline|done].
Qed.

Lemma digit_lazy_dots_None k s :
  digit_lazy_dots k s = None →
  ∀ a b, s = a +:+ b → starts_with_digit a → no_newline a → k a b = None.
Proof.
  intros H a b -> Hd Ha. destruct a as [|c a]; [done|].
  apply no_newline_cons in Ha as [Hc Ha]. simpl in Hd.
  rewrite append_cons in H. simpl in H. rewrite Hd in H.
  by eapply (lazy_dots_None _ _ _ H a b).
Qed.
End Backtracking_facts.

(** ** [WHEEL_NAME] against the grammar *)

Lemma mbind_Some {A B} (x : A) (f : A → option B) : Some x ≫= f = f x.
Proof. reflexivity. Qed.

(** Step over a literal that is there. *)
Ltac step_lit l H :=
  rewrite (lit_append l), mbind_Some in H; cbv beta in H.

Lemma wheel_name_tags_Some p v bo s g :
  wheel_name_tags p v bo s = Some g →
  ∃ py abi plat tail,
    s = tags_text py abi plat tail ∧ is_tail tail ∧
    (py ≠ "" ∧ abi ≠ "" ∧ plat ≠ "") ∧
    (no_newline py ∧ no_newline abi ∧ no_newline plat) ∧
    g = mkGroups p v bo py abi plat.
Proof.
  unfold wheel_name_tags. intros H.
  destruct (lit "-" s) as [s1|] eqn:E1; [|done]. apply lit_Some in E1 as ->.
  apply lazy_dots1_Some in H as (py & s2 & -> & Hpy & Npy & H).
  destruct (lit "-" s2) as [s3|] eqn:E2; [|done]. apply lit_Some in E2 as ->.
  apply lazy_dots1_Some in H as (ab & s4 & -> & Hab & Nab & H).
  destruct (lit "-" s4) as [s5|] eqn:E3; [|done]. apply lit_Some in E3 as ->.
  apply lazy_dots1_Some in H as (pl & s6 & -> & Hpl & Npl & H).
  destruct (lit ".whl" s6) as [s7|] eqn:E4; [|done]. apply lit_Some in E4 as ->.
  simpl in H. destruct (at_end s7) eqn:E5; [|done]. injection H as <-.
  apply at_end_true in E5. by exists py, ab, pl, s7.
Qed.

Lemma wheel_name_tags_complete p v bo py abi plat tail :
  is_tail tail → py ≠ "" → abi ≠ "" → plat ≠ "" →
  no_newline py → no_newline abi → no_newline plat →
  is_Some (wheel_name_tags p v bo (tags_text py abi plat tail)).
Proof.
  intros Ht Hpy Hab Hpl Npy Nab Npl.
  destruct (wheel_name_tags p v bo (tags_text py abi plat tail)) eqn:H; [done|].
  exfalso. unfold wheel_name_tags, tags_text in H.
  step_lit "-" H.
  eapply lazy_dots1_None in H; [|reflexivity|done..]. cbv beta in H.
  step_lit "-" H.
  eapply lazy_dots1_None in H; [|reflexivity|done..]. cbv beta in H.
  step_lit "-" H.
  eapply lazy_dots1_None in H; [|reflexivity|done..]. cbv beta in H.
  step_lit ".whl" H.
  apply at_end_true in Ht. by rewrite Ht in H.
Qed.

Lemma WHEEL_NAME_sound (s : string) (g : Groups) :
  WHEEL_NAME s = Some g → matches_pattern s g.
Proof.
  unfold WHEEL_NAME. intros H.
  apply lazy_dots1_Some in H as (p & s1 & -> & Hp & Np & H).
  destruct (lit "-" s1) as [s2|] eqn:E1; [|done]. apply lit_Some in E1 as ->.
  apply digit_lazy_dots_Some in H as (v & s3 & -> & Hv & Nv & H).
  unfold wheel_name_build in H.
  destruct (lit "-" s3) as [s4|] eqn:E2; simpl in H.
  - destruct (digit_lazy_dots _ s4) as [g'|] eqn:E3.
    + injection H as ->. apply lit_Some in E2 as ->.
      apply digit_lazy_dots_Some in E3 as (b & s5 & -> & Hb & Nb & H).
      apply wheel_name_tags_Some in H
        as (py & ab & pl & tail & -> & Ht & (?&?&?) & (?&?&?) & ->).
      split_and!.
      * unfold wheel_text, tags_text, build_text; simpl.
        rewrite !append_assoc. destruct Ht as [->| ->]; [by left|by right].
      * split_and!; simpl; [done|done| |done..]. by intros ? [= <-].
      * split_and!; simpl; [done|done| |done..]. by intros ? [= <-].
    + apply wheel_name_tags_Some in H
        as (py & ab & pl & tail & Hs3 & Ht & (?&?&?) & (?&?&?) & ->).
      rewrite Hs3. split_and!.
      * unfold wheel_text, tags_text, build_text; simpl.
        destruct Ht as [->| ->]; [by left|by right].
      * split_and!; simpl; done.
      * split_and!; simpl; done.
  - apply wheel_name_tags_Some in H
      as (py & ab & pl & tail & Hs3 & Ht & (?&?&?) & (?&?&?) & ->).
    rewrite Hs3. split_and!.
    + unfold wheel_text, tags_text, build_text; simpl.
      destruct Ht as [->| ->]; [by left|by right].
    + split_and!; simpl; done.
    + split_and!; simpl; done.
Qed.

Lemma WHEEL_NAME_complete (s : string) (g : Groups) :
  matches_pattern s g → is_Some (WHEEL_NAME s).
Proof.
  intros (Hs & (Hp & Hv & Hb & Hpy & Hab & Hpl) &
          (Np & Nv & Nb & Npy & Nab & Npl)).
  assert (∃ tail, is_tail tail ∧ s = wheel_text g tail) as (tail & Ht & ->).
  { destruct Hs as [->| ->]; eexists; (split; [|done]); [by left|by right]. }
  destruct (WHEEL_NAME (wheel_text g tail)) eqn:H; [done|]. exfalso.
  unfold WHEEL_NAME, wheel_text in H.
  eapply lazy_dots1_None in H; [|reflexivity|done..]. cbv beta in H.
  step_lit "-" H.
  eapply digit_lazy_dots_None in H; [|reflexivity|done..]. cbv beta in H.
  unfold wheel_name_build in H.
  pose proof (wheel_name_tags_complete (g_project_name g) (g_version g)) as C.
  destruct (g_build g) as [b|] eqn:Eb; unfold build_text in H.
  - rewrite append_assoc in H. step_lit "-" H.
    match type of H with
    | match ?X with _ => _ end = None => destruct X eqn:E; [done|]
    end.
    eapply digit_lazy_dots_None in E; [|reflexivity|by eauto..]. cbv beta in E.
    fold (tags_text (g_py_version g) (g_abi g) (g_platform g) tail) in E.
    by destruct (C (Some b) _ _ _ _ Ht Hpy Hab Hpl Npy Nab Npl) as [? ?];
      simplify_eq.
  - rewrite append_nil_l in H.
    match type of H with
    | match ?X with _ => _ end = None => destruct X eqn:E; [done|]
    end.
    fold (tags_text (g_py_version g) (g_abi g) (g_platform g) tail) in H.
    by destruct (C None _ _ _ _ Ht Hpy Hab Hpl Npy Nab Npl) as [? ?];
      simplify_eq.
Qed.

(** ** [Wheel.__init__] *)

Lemma endswith_refl (p : string) : endswith p p = true.
Proof. destruct p; simpl; by rewrite ?Ascii.eqb_refl, ?String.eqb_refl. Qed.

Lemma endswith_append (p s t : string) :
  endswith p t = true → endswith p (s +:+ t) = true.
Proof.
  intros H. induction s as [|c s IH]; [done|].
  rewrite append_cons. simpl. rewrite IH. apply orb_true_r.
Qed.

Lemma wheel_text_endswith (g : Groups) : endswith ".whl" (wheel_text g "") = true.
Proof.
  unfold wheel_text. do 10 apply endswith_append. reflexivity.
Qed.

(** C4 (the code at the failing input): the name ["a-1-b-c-d.whl\n"] is
    accepted, with platform ["d"], although its basename ends in a newline
    and so has no reading by the grammar, which ends in [.whl]: the pattern
    closes with [$], which also matches just before a final newline, where
    the end of the basename was meant.  The claim asks for the error. *)
Lemma Wheel_init_accepts_trailing_newline :
  Wheel_init ("a-1-b-c-d.whl" +:+ String newline "") =
    Ok (mkWheel ("a-1-b-c-d.whl" +:+ String newline "")
          "a" "1" None "b" "c" "d") ∧
  (∀ g, ¬ matches_grammar
            (basename ("a-1-b-c-d.whl" +:+ String newline "")) g) ∧
  ¬ init_follows_grammar ("a-1-b-c-d.whl" +:+ String newline "").
Proof.
  assert (∀ g, ¬ matches_grammar
                   (basename ("a-1-b-c-d.whl" +:+ String newline "")) g)
    as Hno.
  { intros g [Hg _]. pose proof (wheel_text_endswith g) as E.
    rewrite <- Hg in E. by vm_compute in E. }
  split_and!; [by vm_compute|done|].
  intros [(w & _ & _ & Hg)|[Hw _]].
  - exact (Hno _ Hg).
  - by vm_compute in Hw.
Qed.

Lemma Wheel_init_Ok (f : string) (w : Wheel) :
  Wheel_init f = Ok w →
  filename w = f ∧ matches_pattern (basename f) (groups_of w).
Proof.
  unfold Wheel_init. destruct (WHEEL_NAME (basename f)) as [g|] eqn:H; [|done].
  intros [= <-]. split; [done|]. apply WHEEL_NAME_sound in H. by destruct g.
Qed.

Lemma Wheel_init_Raise (f : string) (e : exn) :
  Wheel_init f = Raise e →
  e = InvalidWheelName f ∧ ∀ g, ¬ matches_pattern (basename f) g.
Proof.
  unfold Wheel_init. destruct (WHEEL_NAME (basename f)) as [g|] eqn:H; [done|].
  intros [= <-]. split; [done|]. intros g Hg.
  apply WHEEL_NAME_complete in Hg. rewrite H in Hg. by destruct Hg.
Qed.

(** What [Wheel.__init__] does on every file name, by the pattern as it is
    written: it either returns a wheel that keeps the file name and whose six
    fields read the basename (the fields hold no newline, the version and
    the build tag begin with a digit, and one newline may follow [.whl]), or
    it raises the error that carries the file name, and then the basename
    has no such reading. *)
Lemma Wheel_init_pattern (f : string) :
  match Wheel_init f with
  | Ok w => filename w = f ∧ matches_pattern (basename f) (groups_of w)
  | Raise e =>
      e = InvalidWheelName f ∧ ∀ g, ¬ matches_pattern (basename f) g
  end.
Proof.
  destruct (Wheel_init f) as [w|e] eqn:H.
  - by apply Wheel_init_Ok.
  - by apply Wheel_init_Raise.
Qed.

(** ** Tags *)

Lemma split_nonempty (sep : ascii) (s : string) : split sep s ≠ [].
Proof.
  destruct s as [|c s]; simpl; [done|].
  destruct (Ascii.eqb c sep); [done|]. by destruct (split sep s).
Qed.

Lemma elem_of_tags (w : Wheel) (t : tag) :
  t ∈ tags w ↔
  t.1.1 ∈ split "." (py_version w) ∧ t.1.2 ∈ split "." (abi w) ∧
  t.2 ∈ split "." (platform w).
Proof.
  unfold tags. destruct t as [[p a] l]. simpl.
  rewrite list_elem_of_In, in_flat_map. setoid_rewrite in_flat_map.
  setoid_rewrite in_map_iff. setoid_rewrite <- list_elem_of_In.
  split.
  - intros (p' & Hp & a' & Ha & l' & [= -> -> ->] & Hl). done.
  - intros (Hp & Ha & Hl). exists p. split; [done|]. exists a.
    split; [done|]. by exists l.
Qed.

(** C9: a wheel that [Wheel.__init__] returned has non-empty [py_version],
    [abi] and [platform] fields, and [tags()] yields at least one triple. *)
Theorem tags_nonempty (f : string) (w : Wheel) :
  Wheel_init f = Ok w →
  py_version w ≠ "" ∧ abi w ≠ "" ∧ platform w ≠ "" ∧ tags w ≠ [].
Proof.
  intros H. apply Wheel_init_Ok in H
    as (_ & _ & (_ & _ & _ & Hpy & Hab & Hpl) & _).
  split_and!; [done..|]. unfold tags.
  pose proof (split_nonempty "." (py_version w)).
  pose proof (split_nonempty "." (abi w)).
  pose proof (split_nonempty "." (platform w)).
  destruct (split "." (py_version w)); [done|].
  destruct (split "." (abi w)); [done|].
  destruct (split "." (platform w)); [done|]. done.
Qed.

(** The wheel [foo-1.0-py2.py3-none-any.whl] has tags. *)
Lemma tags_nonempty_witness :
  Wheel_init "foo-1.0-py2.py3-none-any.whl" =
    Ok (mkWheel "foo-1.0-py2.py3-none-any.whl" "foo" "1.0" None "py2.py3"
          "none" "any") ∧
  tags (mkWheel "foo-1.0-py2.py3-none-any.whl" "foo" "1.0" None "py2.py3"
          "none" "any") ≠ [].
Proof.
  split; [reflexivity|].
  apply (tags_nonempty "foo-1.0-py2.py3-none-any.whl"). reflexivity.
Defined.

(** ** Compatibility *)

Lemma next_supported_spec (supported : list tag) (ts : list tag) :
  ∃ rest, ts = (next_supported supported ts).2 ++ rest ∧
    if (next_supported supported ts).1
    then ∃ seen t, (next_supported supported ts).2 = seen ++ [t] ∧
                   t ∈ supported ∧ Forall (λ x, x ∉ supported) seen
    else rest = [] ∧ Forall (λ x, x ∉ supported) ts.
Proof.
  induction ts as [|t ts IH]; simpl.
  - exists []. by split.
  - case_bool_decide as Ht; simpl.
    + exists ts. split; [done|]. exists [], t. by split_and!.
    + destruct (next_supported supported ts) as [b seen]; simpl in *.
      destruct IH as (rest & -> & IH). exists rest. split; [done|].
      destruct b.
      * destruct IH as (seen' & t' & -> & Ht' & Hall).
        exists (t :: seen'), t'. split_and!; [done|done|by constructor].
      * destruct IH as [-> Hall]. split; [done|]. by constructor.
Qed.

(** C1: [is_compatible] is true exactly when some triple of the cross product
    of the split fields is among the supported tags.  The tags it tests are
    an initial part of [tags()], in its order (py_version outermost, platform
    innermost): when it answers true the last tag tested is the first
    supported one and nothing after it is tested; when it answers false every
    tag was tested.  It is a function of the wheel and the supported tags and
    changes neither. *)
Theorem is_compatible_spec (supported_tags : list tag) (w : Wheel) :
  (is_compatible supported_tags w = true ↔
   ∃ py a pl, py ∈ split "." (py_version w) ∧ a ∈ split "." (abi w) ∧
              pl ∈ split "." (platform w) ∧ (py, a, pl) ∈ supported_tags) ∧
  (∃ rest, tags w = is_compatible_tested supported_tags w ++ rest ∧
     if is_compatible supported_tags w
     then ∃ seen t, is_compatible_tested supported_tags w = seen ++ [t] ∧
                    t ∈ supported_tags ∧
                    Forall (λ x, x ∉ supported_tags) seen
     else rest = [] ∧ Forall (λ x, x ∉ supported_tags) (tags w)).
Proof.
  unfold is_compatible, is_compatible_tested.
  pose proof (next_supported_spec supported_tags (tags w)) as (rest & E & H).
  split; [|by exists rest].
  destruct (next_supported supported_tags (tags w)) as [b seen]; simpl in *.
  destruct b.
  - split; [intros _|done]. destruct H as (seen' & [[py a] pl] & -> & Ht & _).
    assert ((py, a, pl) ∈ tags w) as Hin.
    { rewrite E. rewrite !elem_of_app, list_elem_of_singleton. auto. }
    apply elem_of_tags in Hin as (? & ? & ?). by exists py, a, pl.
  - split; [done|]. intros (py & a & pl & Hp & Ha & Hl & Hs).
    destruct H as [_ Hall]. rewrite Forall_forall in Hall.
    exfalso. apply (Hall (py, a, pl)); [|done]. by apply elem_of_tags.
Qed.

(** ** Egg name *)

Lemma append_inv_l (s t u : string) : s +:+ t = s +:+ u → t = u.
Proof. apply (inj (String.app s)). Qed.

(** C7: the egg name is ["{project_name}-{version}.egg"] exactly when the
    platform field is the literal ["any"], and otherwise
    ["{project_name}-{version}-{platform}.egg"] with the platform that
    [get_platform()] reports on the host; a wheel [foo-1.0] for [any] gives
    ["foo-1.0.egg"]. *)
Theorem egg_name_spec (get_platform : string) (w : Wheel) :
  (egg_name get_platform w = project_name w +:+ "-" +:+ version w +:+ ".egg"
   ↔ platform w = "any") ∧
  (egg_name get_platform w =
     project_name w +:+ "-" +:+ version w +:+ "-" +:+ get_platform +:+ ".egg"
   ↔ platform w ≠ "any") ∧
  egg_name get_platform
    (mkWheel "foo-1.0-py2-none-any.whl" "foo" "1.0" None "py2" "none" "any")
  = "foo-1.0.egg" ∧
  egg_name get_platform
    (mkWheel "foo-1.0-py2-none-linux_x86_64.whl" "foo" "1.0" None "py2"
       "none" "linux_x86_64")
  = "foo-1.0-" +:+ get_platform +:+ ".egg".
Proof.
  unfold egg_name, Distribution_egg_name.
  split_and!; [| |reflexivity|reflexivity].
  - destruct (String.eqb_spec (platform w) "any") as [E|E].
    + split; [done|]. intros _. by rewrite !append_assoc.
    + split; [|done]. rewrite !append_assoc. intros H.
      do 3 apply append_inv_l in H. discriminate H.
  - destruct (String.eqb_spec (platform w) "any") as [E|E].
    + split; [|done]. rewrite !append_assoc. intros H.
      do 3 apply append_inv_l in H. discriminate H.
    + split; [done|]. intros _. by rewrite !append_assoc.
Qed.

(** ** Finding the [.dist-info] directory *)

Lemma startswith_spec (p s : string) :
  startswith p s = true ↔ ∃ t, s = p +:+ t.
Proof.
  revert s. induction p as [|a p IH]; intros s; simpl.
  - split; [by exists s|done].
  - destruct s as [|c s]; [by split; [|intros [? ?]]|].
    rewrite andb_true_iff, IH. split.
    + intros [Hc [t ->]]. apply Ascii.eqb_eq in Hc as ->. by exists t.
    + intros [t [= -> ->]]. split; [apply Ascii.eqb_refl|by exists t].
Qed.

Lemma endswith_spec (p s : string) :
  endswith p s = true ↔ ∃ t, s = t +:+ p.
Proof.
  induction s as [|c s IH]; simpl.
  - rewrite orb_false_r, String.eqb_eq. split.
    + intros ->. by exists "".
    + intros [[|??] H]; [done|discriminate H].
  - rewrite orb_true_iff, String.eqb_eq, IH. split.
    + intros [->|[t ->]]; [by exists ""|by exists (String c t)].
    + intros [[|c' t] H]; [by left|]. right. exists t.
      rewrite append_cons in H. by injection H.
Qed.

Lemma is_dist_info_spec (project_name d : string) :
  is_dist_info project_name d = true ↔ qualifies project_name d.
Proof.
  unfold is_dist_info, qualifies.
  by rewrite andb_true_iff, endswith_spec, startswith_spec.
Qed.

(** C6 (as stated, refuted): for the project [a], the archive with members
    [a/x.dist-info/METADATA] and [a-1.dist-info/METADATA] gives
    [a/x.dist-info], which is not a top-level directory; the test is made on
    the whole directory part of a member. *)
Lemma get_dist_info_not_top_level :
  ¬ finds_first_top_level "a"
      ["a/x.dist-info/METADATA"; "a-1.dist-info/METADATA"].
Proof. unfold finds_first_top_level. vm_compute. by intros [? _]. Qed.

(** C6 (amended): [get_dist_info] returns the directory part
    ([posixpath.dirname]) of the first member whose directory part ends in
    [.dist-info] and, canonicalized, starts with the canonicalized project
    name, whether that directory is top-level or nested; when no member
    qualifies it raises the error that the [.dist-info] directory was not
    found. *)
Theorem get_dist_info_first (project_name : string) (names : list string) :
  match get_dist_info project_name names with
  | Ok d =>
      qualifies project_name d ∧
      ∃ l1 m l2, names = l1 ++ m :: l2 ∧ d = dirname m ∧
        Forall (λ m', ¬ qualifies project_name (dirname m')) l1
  | Raise e =>
      e = DistInfoNotFound ∧
      Forall (λ m, ¬ qualifies project_name (dirname m)) names
  end.
Proof.
  induction names as [|m names IH]; simpl; [done|].
  destruct (is_dist_info project_name (dirname m)) eqn:E.
  - split; [by apply is_dist_info_spec|]. by exists [], m, names.
  - assert (¬ qualifies project_name (dirname m)) as Hm.
    { rewrite <- is_dist_info_spec. by rewrite E. }
    destruct (get_dist_info project_name names) as [d|e].
    + destruct IH as (Hq & l1 & m' & l2 & -> & -> & Hall).
      split; [done|]. exists (m :: l1), m', l2. by split_and!; [..|constructor].
    + destruct IH as [-> Hall]. split; [done|]. by constructor.
Qed.

(** ** The format version *)

Lemma strip_zeros_cons_nonzero (x : N) (l : list N) :
  x ≠ 0%N → ∃ r, strip_zeros (x :: l) = x :: r.
Proof.
  intros Hx. simpl. destruct (strip_zeros l) as [|y r].
  - apply N.eqb_neq in Hx. rewrite Hx. by exists [].
  - by exists (y :: r).
Qed.

Lemma strip_zeros_cons_zero (l : list N) :
  strip_zeros (0%N :: l) = [] ∨ ∃ r, strip_zeros (0%N :: l) = 0%N :: r.
Proof.
  simpl. destruct (strip_zeros l) as [|y r]; [by left|right; by eexists].
Qed.

(** A final release [major.rest] is accepted exactly when [major] is 1. *)
Lemma wheel_v1_final_release (major : N) (rest : list N) :
  wheel_v1 (PEP440 (mkVersion 0%N (major :: rest) None None None)) = true
  ↔ major = 1%N.
Proof.
  unfold wheel_v1, version_le, version_lt.
  change (parse_version "1.0") with (PEP440 (mkVersion 0%N [1; 0]%N None None None)).
  change (parse_version "2.0dev0")
    with (PEP440 (mkVersion 0%N [2; 0]%N None None (Some 0%N))).
  unfold compare_parsed, compare_version. cbn [epoch release pre post dev].
  change (strip_zeros [1; 0]%N) with [1%N].
  change (strip_zeros [2; 0]%N) with [2%N].
  destruct (N.eq_dec major 0%N) as [->|H0].
  { destruct (strip_zeros_cons_zero rest) as [->|[r ->]]; by split. }
  destruct (strip_zeros_cons_nonzero major rest H0) as [r ->].
  cbn [compare_release]. rewrite (N.compare_antisym major 1%N).
  destruct (N.compare_spec major 1%N) as [->|Hlt|Hgt]; cbn.
  - destruct r; by split.
  - lia.
  - split; [|lia]. intros H. exfalso.
    destruct (N.compare_spec major 2%N) as [->|Hlt2|Hgt2]; cbn in H.
    + by destruct r.
    + lia.
    + done.
Qed.

(** C2: the check accepts a version exactly when it lies in
    [1.0 <= v < 2.0dev0], and raises the format error for every other one;
    [1.0] and [1.9] are accepted, [0.9], [2.0] and [2.0dev0] are rejected;
    a final release is accepted exactly when its major number is 1, and text
    that is no version number is rejected. *)
Theorem wheel_version_range :
  (∀ v, check_wheel_version v = Ok tt ↔
        version_le (parse_version "1.0") v = true ∧
        version_lt v (parse_version "2.0dev0") = true) ∧
  (∀ v, check_wheel_version v ≠ Ok tt ↔
        check_wheel_version v = Raise (UnsupportedWheelVersion v)) ∧
  check_wheel_version (parse_version "1.0") = Ok tt ∧
  check_wheel_version (parse_version "1.9") = Ok tt ∧
  check_wheel_version (parse_version "0.9") =
    Raise (UnsupportedWheelVersion (parse_version "0.9")) ∧
  check_wheel_version (parse_version "2.0") =
    Raise (UnsupportedWheelVersion (parse_version "2.0")) ∧
  check_wheel_version (parse_version "2.0dev0") =
    Raise (UnsupportedWheelVersion (parse_version "2.0dev0")) ∧
  (∀ major rest,
     check_wheel_version (PEP440 (mkVersion 0%N (major :: rest) None None None))
       = Ok tt ↔ major = 1%N) ∧
  (∀ text, check_wheel_version (LegacyVersion text) ≠ Ok tt).
Proof.
  split_and!; try (by vm_compute).
  - intros v. unfold check_wheel_version, wheel_v1.
    destruct (version_le _ v), (version_lt v _); simpl;
      (split; [intros ?|intros [? ?]]); done.
  - intros v. unfold check_wheel_version.
    destruct (wheel_v1 v); simpl; (split; intros ?); congruence.
  - intros major rest. rewrite <- (wheel_v1_final_release major rest).
    unfold check_wheel_version.
    destruct (wheel_v1 _); simpl; (split; intros ?); congruence.
Qed.

(** ** Requirements *)

Lemma raw_req_text (req : Requirement) : raw_req req = req_text req.
Proof. unfold raw_req, Requirement_str. simpl. apply append_nil_r. Qed.

Lemma sorted_Sorted (l : list string) : Sorted String.le (sorted l).
Proof. apply (Sorted_merge_sort String.le). Qed.

Lemma sorted_Permutation (l : list string) : sorted l ≡ₚ l.
Proof. apply merge_sort_Permutation. Qed.

Lemma extras_require_lookup (dist : Dist) (extra : string) :
  extras_require dist !! extra =
  if bool_decide (extra ∈ extras dist)
  then Some (extra_requires dist extra) else None.
Proof.
  unfold extras_require.
  assert (∀ (l : list string) (m : gmap string (list string)),
    foldl (λ m e, <[e := extra_requires dist e]> m) m l !! extra =
    if bool_decide (extra ∈ l) then Some (extra_requires dist extra)
    else m !! extra) as H.
  { induction l as [|e l IH]; intros m; simpl; [done|].
    rewrite IH. destruct (decide (e = extra)) as [->|Hne].
    - rewrite lookup_insert_eq.
      rewrite (bool_decide_eq_true_2 (extra ∈ extra :: l)) by constructor.
      by case_bool_decide.
    - rewrite lookup_insert_ne by done.
      case_bool_decide as H1; case_bool_decide as H2; try done.
      + exfalso. apply H2. by constructor.
      + exfalso. apply H1. apply elem_of_cons in H2 as [?|?]; [by subst|done].
  }
  rewrite H. by rewrite lookup_empty.
Qed.

(** C5: every requirement is rendered without its marker; the base list is
    the sorted list of the base requirements; for every declared extra there
    is a list, sorted, made of the requirements of that extra that are not
    in the base list; the example gives [["b"]] for [test]. *)
Theorem requirement_normalization (dist : Dist) :
  (∀ req, raw_req req = req_text req) ∧
  Sorted String.le (install_requires dist) ∧
  install_requires dist ≡ₚ map req_text (requires dist []) ∧
  (∀ extra,
     extras_require dist !! extra =
       (if bool_decide (extra ∈ extras dist)
        then Some (extra_requires dist extra) else None) ∧
     Sorted String.le (extra_requires dist extra) ∧
     extra_requires dist extra ≡ₚ
       filter (λ r, r ∉ install_requires dist)
              (map req_text (requires dist [extra])) ∧
     Forall (λ r, r ∉ install_requires dist) (extra_requires dist extra)) ∧
  install_requires example_dist = ["a>=1"] ∧
  extras_require example_dist !! "test" = Some ["b"].
Proof.
  assert (∀ l, map raw_req l = map req_text l) as Hmap.
  { intros l. apply map_ext, raw_req_text. }
  split_and!.
  - apply raw_req_text.
  - apply sorted_Sorted.
  - unfold install_requires. by rewrite sorted_Permutation, Hmap.
  - intros extra. split_and!.
    + apply extras_require_lookup.
    + apply sorted_Sorted.
    + unfold extra_requires. by rewrite sorted_Permutation, Hmap.
    + unfold extra_requires. rewrite Forall_forall. intros r Hr.
      rewrite sorted_Permutation in Hr. by apply list_elem_of_filter in Hr as [? _].
  - by vm_compute.
  - by vm_compute.
Qed.

(** ** The record of changing calls *)

Lemma appends_ret {A} (a : A) : appends (ret a).
Proof. intros w. exists []. by rewrite app_nil_r. Qed.

Lemma appends_raise {A} (e : exn) : appends (@raise A e).
Proof. intros w. exists []. by rewrite app_nil_r. Qed.

Lemma appends_lift {A} (r : result A) : appends (lift r).
Proof. intros w. exists []. by rewrite app_nil_r. Qed.

Lemma appends_get_root : appends get_root.
Proof. intros w. exists []. by rewrite app_nil_r. Qed.

Lemma appends_log (c : syscall) : appends (log c).
Proof. intros w. by exists [c]. Qed.

Lemma appends_put_root (o : option node) (e : errno) (p : path) :
  appends (put_root o e p).
Proof.
  intros w. exists []. rewrite app_nil_r. unfold put_root. by destruct o.
Qed.

Lemma appends_bind {A B} (m : M A) (k : A → M B) :
  appends m → (∀ a, appends (k a)) → appends (bind m k).
Proof.
  intros Hm Hk w. unfold bind. destruct (Hm w) as [l Hl].
  destruct (m w) as [[a|e] w1]; simpl in *.
  - destruct (Hk a w1) as [l' Hl']. exists (l ++ l').
    by rewrite Hl', Hl, app_assoc.
  - by exists l.
Qed.

Lemma appends_try (m : M unit) : appends m → appends (try_OSError m).
Proof.
  intros Hm w. unfold try_OSError. destruct (Hm w) as [l Hl].
  exists l. by destruct (m w) as [[?|[]] ?].
Qed.

Lemma appends_mapM_ {A} (f : A → M unit) (l : list A) :
  (∀ a, appends (f a)) → appends (mapM_ f l).
Proof.
  intros Hf. induction l as [|a l IH]; simpl.
  - apply appends_ret.
  - apply appends_bind; [apply Hf|by intros _].
Qed.

Create HintDb appends.
#[local] Hint Resolve appends_ret appends_raise appends_lift appends_get_root
  appends_log appends_put_root : appends.

(** Take a computation apart down to the calls it is made of. *)
Ltac appends :=
  repeat
    lazymatch goal with
    | |- appends (bind _ _) => apply appends_bind
    | |- appends (mapM_ _ _) => apply appends_mapM_
    | |- appends (try_OSError _) => apply appends_try
    | |- appends (if ?b then _ else _) => destruct b
    | |- appends (match ?x with _ => _ end) => destruct x
    | |- appends _ => solve [eauto with appends]
    | |- ∀ _, _ => intro
    end.

Lemma appends_os_path_exists p : appends (os_path_exists p).
Proof. unfold os_path_exists. appends. Qed.
Lemma appends_os_path_isdir p : appends (os_path_isdir p).
Proof. unfold os_path_isdir. appends. Qed.
Lemma appends_os_listdir p : appends (os_listdir p).
Proof. unfold os_listdir. appends. Qed.
Lemma appends_read_file p : appends (read_file p).
Proof. unfold read_file. appends. Qed.
Lemma appends_os_mkdir p : appends (os_mkdir p).
Proof. unfold os_mkdir. appends. Qed.
Lemma appends_os_rmdir p : appends (os_rmdir p).
Proof. unfold os_rmdir. appends. Qed.
Lemma appends_os_unlink p : appends (os_unlink p).
Proof. unfold os_unlink. appends. Qed.
Lemma appends_os_rename p q : appends (os_rename p q).
Proof. unfold os_rename. appends. Qed.
Lemma appends_write_file p s : appends (write_file p s).
Proof. unfold write_file. appends. Qed.
Lemma appends_os_path_exists_named a : appends (os_path_exists_named a).
Proof. unfold os_path_exists_named. appends. Qed.
#[local] Hint Resolve appends_os_path_exists appends_os_path_isdir
  appends_os_listdir appends_read_file appends_os_mkdir appends_os_rmdir
  appends_os_unlink appends_os_rename appends_write_file
  appends_os_path_exists_named : appends.

Lemma appends_write_or_delete_file p s : appends (write_or_delete_file p s).
Proof. unfold write_or_delete_file. appends. Qed.
#[local] Hint Resolve appends_write_or_delete_file : appends.

Lemma appends_os_makedirs p : appends (os_makedirs p).
Proof. unfold os_makedirs. appends. Qed.

Lemma appends_prune ps : appends (prune ps).
Proof.
  induction ps as [|q ps IH]; simpl; [apply appends_ret|].
  intros w. destruct (appends_os_rmdir q w) as [l Hl].
  destruct (os_rmdir q w) as [[?|?] w1]; simpl in *; [|by exists l].
  destruct (IH w1) as [l' Hl']. exists (l ++ l').
  by rewrite Hl', Hl, app_assoc.
Qed.
#[local] Hint Resolve appends_os_makedirs appends_prune : appends.

Lemma appends_os_removedirs p : appends (os_removedirs p).
Proof. unfold os_removedirs. appends. Qed.
#[local] Hint Resolve appends_os_removedirs : appends.

Lemma appends_os_renames p q : appends (os_renames p q).
Proof. unfold os_renames. appends. Qed.
#[local] Hint Resolve appends_os_renames : appends.

Lemma appends_os_walk limit body top :
  (∀ p ds fs, appends (body p ds fs)) → appends (os_walk limit body top).
Proof.
  intros Hb. revert top. induction limit as [|limit IH]; intros top; simpl.
  - apply appends_raise.
  - appends; first [apply Hb|apply IH].
Qed.

Lemma appends_unpack_dirs dst dirpath subdir todo dirnames :
  appends (unpack_dirs dst dirpath subdir todo dirnames).
Proof.
  revert dirnames. induction todo as [|[n d] todo IH]; intros dirnames; simpl.
  - apply appends_ret.
  - appends; apply IH.
Qed.
#[local] Hint Resolve appends_unpack_dirs : appends.

Lemma appends_unpack limit src dst : appends (unpack limit src dst).
Proof.
  unfold unpack. appends; apply appends_os_walk; intros.
  - unfold unpack_move. appends.
  - unfold unpack_cleanup. appends.
Qed.

Lemma appends_extractall zf p : appends (extractall zf p).
Proof. unfold extractall, extract_member. appends. Qed.

Lemma appends_relocate_scripts dest data : appends (relocate_scripts dest data).
Proof. unfold relocate_scripts. appends. Qed.

Lemma appends_fix_namespace_packages host egg dest :
  appends (_fix_namespace_packages host egg dest).
Proof. unfold _fix_namespace_packages. appends. Qed.
#[local] Hint Resolve appends_unpack appends_extractall
  appends_relocate_scripts appends_fix_namespace_packages : appends.

(** ** [_install_as_egg]: validation comes before the first change *)

Lemma os_mkdir_trace (p : path) (w : world) :
  trace (os_mkdir p w).2 = trace w ++ [Mkdir p].
Proof.
  unfold os_mkdir, bind, log, get_root, raise, put_root, attach. simpl.
  destruct (lookup_path (root w) p); [done|].
  destruct (split_last p) as [[q x]|]; [|done]. simpl.
  destruct (lookup_path (root w) q) as [[|es]|]; [done| |done].
  by destruct (with_dir q _ (root w)).
Qed.

Lemma os_mkdir_exists (p : path) (w : world) :
  is_Some (lookup_path (root w) p) →
  os_mkdir p w = (Raise (OSError EEXIST p), mkWorld (root w) (trace w ++ [Mkdir p])).
Proof.
  intros [n Hn]. unfold os_mkdir, bind, log, get_root, raise. simpl.
  by rewrite Hn.
Qed.

Lemma bind_trace {A B} (m : M A) (k : A → M B) (w : world) :
  (∀ a, appends (k a)) → ∃ l, trace (bind m k w).2 = trace (m w).2 ++ l.
Proof.
  intros Hk. unfold bind. destruct (m w) as [[a|e] w1]; simpl.
  - apply Hk.
  - exists []. by rewrite app_nil_r.
Qed.

(** C3 (as stated, refuted): for an archive with no [.dist-info] directory
    the installation raises without any changing call; the destination
    directory has not been created. *)
Lemma install_raises_before_mkdir :
  ¬ created_before_validation example_host example_wheel ["egg"]
      example_no_dist_info (mkWorld (Dir []) []).
Proof.
  intros H. destruct (H DistInfoNotFound) as [E _]; [reflexivity|].
  vm_compute in E. discriminate E.
Qed.

(** C3 (amended): discovery of the [.dist-info] directory and the check of
    the format version read the archive only.  When one of them fails the
    installation raises that error and the file system is as before: no
    call that changes it was made, the destination directory was not
    created and nothing was extracted.  When both pass, creating the
    destination directory is the first changing call, and on a destination
    that exists it fails leaving everything in place. *)
Theorem install_validates_first (host : Host) (self : Wheel)
    (destination_eggdir : path) (zf : ZipFile) (w : world) :
  match validate host self zf with
  | Raise e =>
      _install_as_egg host self destination_eggdir zf w = (Raise e, w)
  | Ok _ =>
      (∃ l, trace (_install_as_egg host self destination_eggdir zf w).2 =
            trace w ++ Mkdir destination_eggdir :: l) ∧
      (is_Some (lookup_path (root w) destination_eggdir) →
       _install_as_egg host self destination_eggdir zf w =
         (Raise (OSError EEXIST destination_eggdir),
          mkWorld (root w) (trace w ++ [Mkdir destination_eggdir])))
  end.
Proof.
  unfold validate, _install_as_egg.
  destruct (get_dist_info _ _) as [dist_info|e]; [|done].
  change (bind (lift (Ok dist_info)) ?k) with (k dist_info). cbv beta.
  destruct (zf_read _ _) as [wheel_metadata|e]; [|done].
  change (bind (lift (Ok wheel_metadata)) ?k) with (k wheel_metadata). cbv beta.
  destruct (header_get _ _ _) as [v|]; [|done].
  change (bind (lift (Ok (parse_version v))) ?k) with (k (parse_version v)).
  cbv beta.
  destruct (check_wheel_version _) as [[]|e]; [|done].
  change (bind (lift (Ok ())) ?k) with (k ()). cbv beta.
  split.
  - match goal with
    | |- ∃ l, trace (bind ?m ?k w).2 = _ =>
        destruct (bind_trace m k w) as [l Hl]
    end.
    { intros _. appends. }
    exists l. by rewrite Hl, os_mkdir_trace, <- app_assoc.
  - intros Hex. unfold bind at 1. by rewrite os_mkdir_exists.
Qed.

(** ** [unpack] *)

(** C10 (the code at the failing input): unpacking a source that holds only
    the empty directory [pkg] into a destination that has [pkg] moves
    nothing; the cleanup then calls [os.rmdir] on the source first, which
    is not empty, and [unpack] raises with the source still in place. *)
Lemma unpack_keeps_empty_subdir (limit : nat) :
  unpack (S (S limit)) ["src"] ["dst"] (mkWorld example_empty_subdir []) =
  (Raise (OSError ENOTEMPTY ["src"]),
   mkWorld example_empty_subdir [Rmdir ["src"]]).
Proof. reflexivity. Qed.

(** ** The file system *)

Lemma assoc_None (x : string) (es : list (string * node)) :
  assoc x es = None ↔ x ∉ names es.
Proof.
  induction es as [|[y n] es IH]; simpl.
  - split; [intros _; apply not_elem_of_nil|done].
  - rewrite not_elem_of_cons. destruct (String.eqb_spec x y) as [->|Hne].
    + split; [done|]. by intros [? _].
    + rewrite IH. split; [done|by intros [_ ?]].
Qed.

Lemma assoc_app (x : string) (es1 es2 : list (string * node)) :
  assoc x (es1 ++ es2) =
  match assoc x es1 with Some n => Some n | None => assoc x es2 end.
Proof.
  induction es1 as [|[y n] es1 IH]; simpl; [done|].
  by destruct (String.eqb x y).
Qed.

Lemma assoc_set_entry_eq (x : string) (c c' : node) es :
  assoc x es = Some c → assoc x (set_entry x c' es) = Some c'.
Proof.
  induction es as [|[y n] es IH]; simpl; [done|].
  destruct (String.eqb x y) eqn:E; simpl; rewrite E; [done|apply IH].
Qed.

Lemma assoc_set_entry_ne (x y : string) (c' : node) es :
  x ≠ y → assoc y (set_entry x c' es) = assoc y es.
Proof.
  intros Hne. induction es as [|[z n] es IH]; simpl; [done|].
  destruct (String.eqb_spec x z) as [->|Hxz]; simpl; [|by rewrite IH].
  by destruct (String.eqb_spec y z) as [->|].
Qed.

Lemma assoc_remove_entry_eq (x : string) es : assoc x (remove_entry x es) = None.
Proof.
  apply assoc_None. unfold names, remove_entry.
  rewrite list_elem_of_fmap. intros ([y n] & -> & H).
  by apply list_elem_of_filter in H as [H _].
Qed.

Lemma assoc_remove_entry_ne (x y : string) es :
  x ≠ y → assoc y (remove_entry x es) = assoc y es.
Proof.
  intros Hne. unfold remove_entry.
  induction es as [|[z n] es IH]; simpl; [done|].
  rewrite filter_cons. simpl. destruct (decide (z ≠ x)) as [Hz|Hz]; simpl.
  - by rewrite IH.
  - apply dec_stable in Hz as ->. rewrite IH.
    by destruct (String.eqb_spec y x) as [->|].
Qed.

Lemma assoc_add_entry_eq (x : string) (n : node) es :
  assoc x (add_entry x n es) = Some n.
Proof.
  unfold add_entry. rewrite assoc_app, assoc_remove_entry_eq. simpl.
  by rewrite String.eqb_refl.
Qed.

Lemma assoc_add_entry_ne (x y : string) (n : node) es :
  x ≠ y → assoc y (add_entry x n es) = assoc y es.
Proof.
  intros Hne. unfold add_entry.
  rewrite assoc_app, assoc_remove_entry_ne by done. simpl.
  destruct (assoc y es); [done|]. by destruct (String.eqb_spec y x) as [->|].
Qed.

Lemma remove_entry_fresh (x : string) es :
  x ∉ names es → remove_entry x es = es.
Proof.
  intros Hx. unfold remove_entry. induction es as [|[y n] es IH]; [done|].
  unfold names in Hx. simpl in Hx. apply not_elem_of_cons in Hx as [Hxy Hx].
  rewrite filter_cons. simpl. rewrite decide_True by done. by rewrite IH.
Qed.

Lemma remove_entry_head (x : string) (n : node) es :
  x ∉ names es → remove_entry x ((x, n) :: es) = es.
Proof.
  intros Hx. unfold remove_entry. rewrite filter_cons. simpl.
  rewrite decide_False by (by intros ?). by apply remove_entry_fresh.
Qed.

Lemma lookup_path_app (t : node) (p q : path) :
  lookup_path t (p ++ q) = lookup_path t p ≫= λ n, lookup_path n q.
Proof.
  revert t. induction p as [|x p IH]; intros t; simpl; [done|].
  destruct t as [|es]; [done|]. destruct (assoc x es); simpl; [apply IH|done].
Qed.

Lemma lookup_path_snoc (t : node) (p : path) (x : string) :
  lookup_path t (p ++ [x]) =
  match lookup_path t p with
  | Some (Dir es) => assoc x es
  | _ => None
  end.
Proof.
  rewrite lookup_path_app. destruct (lookup_path t p) as [[|es]|]; simpl; [done| |done].
  by destruct (assoc x es).
Qed.

Lemma is_prefix_spec (p q : path) : is_prefix p q = true ↔ ∃ r, q = p ++ r.
Proof.
  revert q. induction p as [|x p IH]; intros q; simpl.
  - split; [by exists q|done].
  - destruct q as [|y q]; [by split; [|intros [? ?]]|].
    rewrite andb_true_iff, IH, String.eqb_eq. split.
    + intros [-> [r ->]]. by exists r.
    + intros [r [= -> ->]]. split; [done|by exists r].
Qed.

Lemma is_prefix_app (p r : path) : is_prefix p (p ++ r) = true.
Proof. apply is_prefix_spec. by exists r. Qed.

Lemma diverge_irrefl (p : path) : ¬ diverge p p.
Proof.
  intros [H _]. rewrite <- (app_nil_r p) in H at 2. by rewrite is_prefix_app in H.
Qed.

Lemma diverge_sym (p q : path) : diverge p q → diverge q p.
Proof. by intros [? ?]. Qed.

Lemma diverge_cons (x y : string) (p q : path) :
  diverge (x :: p) (y :: q) ↔ x ≠ y ∨ (x = y ∧ diverge p q).
Proof.
  unfold diverge. simpl. rewrite (String.eqb_sym y x).
  destruct (String.eqb_spec x y) as [->|Hne]; simpl.
  - split; [by right|]. by intros [?|[_ ?]].
  - split; [by left|done].
Qed.

Lemma diverge_app_l (p q r : path) : diverge p q → diverge (p ++ r) q.
Proof.
  revert q. induction p as [|x p IH]; intros q H; [by destruct H|].
  destruct q as [|y q]; [by destruct H|]. simpl. apply diverge_cons.
  apply diverge_cons in H as [?|[-> ?]]; [by left|].
  right. split; [done|by apply IH].
Qed.

Lemma diverge_app_r (p q r : path) : diverge p q → diverge p (q ++ r).
Proof. intros H. by apply diverge_sym, diverge_app_l, diverge_sym. Qed.

Lemma diverge_snoc_ne (p : path) (x y : string) (r : path) :
  x ≠ y → diverge (p ++ [x]) (p ++ y :: r).
Proof.
  intros Hne. induction p as [|z p IH]; simpl.
  - apply diverge_cons. by left.
  - apply diverge_cons. by right.
Qed.

(** The paths that do not diverge from [p ++ [x]] lead to it or come from
    it. *)
Lemma diverge_snoc_inv (p : path) (x : string) (q : path) :
  diverge (p ++ [x]) q →
  diverge p q ∨ ∃ y r, q = p ++ y :: r ∧ x ≠ y.
Proof.
  revert q. induction p as [|z p IH]; intros q H; simpl in *.
  - destruct q as [|y q]; [by destruct H|]. right. exists y, q.
    split; [done|]. apply diverge_cons in H as [?|[-> [H _]]]; [done|].
    by destruct q.
  - destruct q as [|y q]; [by destruct H|].
    apply diverge_cons in H as [Hne|[-> H]].
    + left. apply diverge_cons. by left.
    + destruct (IH q H) as [Hd|(y' & r & -> & Hne)].
      * left. apply diverge_cons. by right.
      * right. by exists y', r.
Qed.

Lemma with_dir_spec (p : path) (f : list (string * node) → list (string * node))
    (t : node) (es : list (string * node)) :
  lookup_path t p = Some (Dir es) →
  ∃ t', with_dir p f t = Some t' ∧
        lookup_path t' p = Some (Dir (f es)) ∧
        ∀ q, diverge p q → lookup_path t' q = lookup_path t q.
Proof.
  revert t. induction p as [|x p IH]; intros t; simpl.
  - intros [= ->]. eexists. split_and!; [done..|]. by intros q [? ?].
  - destruct t as [|es0]; [done|].
    destruct (assoc x es0) as [c|] eqn:Hc; simpl; [|done]. intros Hl.
    destruct (IH c Hl) as (c' & -> & Hc' & Hframe). simpl.
    eexists. split_and!; [done|..].
    + simpl. by erewrite assoc_set_entry_eq.
    + intros [|y q] Hd; [by destruct Hd|]. simpl.
      apply diverge_cons in Hd as [Hne|[<- Hd]].
      * by rewrite assoc_set_entry_ne.
      * erewrite assoc_set_entry_eq by done. rewrite Hc. simpl. by apply Hframe.
Qed.

Lemma split_last_snoc (p : path) (x : string) : split_last (p ++ [x]) = Some (p, x).
Proof. unfold split_last. rewrite reverse_snoc. by rewrite reverse_involutive. Qed.

Lemma lookup_under (t t' : node) (p : path) (es es' : list (string * node))
    (y : string) (r : path) :
  lookup_path t p = Some (Dir es) → lookup_path t' p = Some (Dir es') →
  assoc y es' = assoc y es →
  lookup_path t' (p ++ y :: r) = lookup_path t (p ++ y :: r).
Proof.
  intros H H' E. rewrite !lookup_path_app, H, H'. simpl. by rewrite E.
Qed.

(** Taking the entry [x] out of the directory [p]. *)
Lemma detach_spec (p : path) (x : string) (t : node) es :
  lookup_path t p = Some (Dir es) →
  ∃ t', detach (p ++ [x]) t = Some t' ∧
        lookup_path t' p = Some (Dir (remove_entry x es)) ∧
        ∀ q, diverge (p ++ [x]) q → lookup_path t' q = lookup_path t q.
Proof.
  intros Hp. unfold detach. rewrite split_last_snoc. simpl.
  destruct (with_dir_spec p (remove_entry x) t es Hp) as (t' & -> & Hp' & Hframe).
  exists t'. split_and!; [done..|]. intros q Hd.
  apply diverge_snoc_inv in Hd as [Hd|(y & r & -> & Hne)]; [by apply Hframe|].
  eapply lookup_under; [done..|]. by apply assoc_remove_entry_ne.
Qed.

(** Putting [n] into the directory [p] under the name [x]. *)
Lemma attach_spec (p : path) (x : string) (n : node) (t : node) es :
  lookup_path t p = Some (Dir es) →
  ∃ t', attach (p ++ [x]) n t = Some t' ∧
        lookup_path t' p = Some (Dir (add_entry x n es)) ∧
        ∀ q, diverge (p ++ [x]) q → lookup_path t' q = lookup_path t q.
Proof.
  intros Hp. unfold attach. rewrite split_last_snoc. simpl.
  destruct (with_dir_spec p (add_entry x n) t es Hp) as (t' & -> & Hp' & Hframe).
  exists t'. split_and!; [done..|]. intros q Hd.
  apply diverge_snoc_inv in Hd as [Hd|(y & r & -> & Hne)]; [by apply Hframe|].
  eapply lookup_under; [done..|]. by apply assoc_add_entry_ne.
Qed.

(** ** The scripts of the data directory *)

Lemma os_unlink_file (p : path) (x : string) (c : string) (t : node)
    (tr : list syscall) es :
  lookup_path t p = Some (Dir es) → assoc x es = Some (File c) →
  ∃ t', os_unlink (p ++ [x]) (mkWorld t tr) =
          (Ok tt, mkWorld t' (tr ++ [Unlink (p ++ [x])])) ∧
        lookup_path t' p = Some (Dir (remove_entry x es)) ∧
        ∀ q, diverge (p ++ [x]) q → lookup_path t' q = lookup_path t q.
Proof.
  intros Hp Hx. destruct (detach_spec p x t es Hp) as (t' & Hd & Hp' & Hf).
  exists t'. split_and!; [|done..].
  unfold os_unlink, bind, log, get_root, put_root. simpl.
  by rewrite lookup_path_snoc, Hp, Hx, Hd.
Qed.

Lemma os_rename_fresh (p p' : path) (x : string) (n : node) (t : node)
    (tr : list syscall) es es' :
  diverge p p' →
  lookup_path t p = Some (Dir es) → assoc x es = Some n →
  lookup_path t p' = Some (Dir es') → x ∉ names es' →
  ∃ t', os_rename (p ++ [x]) (p' ++ [x]) (mkWorld t tr) =
          (Ok tt, mkWorld t' (tr ++ [Rename (p ++ [x]) (p' ++ [x])])) ∧
        lookup_path t' p = Some (Dir (remove_entry x es)) ∧
        lookup_path t' p' = Some (Dir (es' ++ [(x, n)])) ∧
        ∀ q, diverge (p ++ [x]) q → diverge (p' ++ [x]) q →
             lookup_path t' q = lookup_path t q.
Proof.
  intros Hd Hp Hx Hp' Hfresh.
  destruct (detach_spec p x t es Hp) as (t1 & Hd1 & Hp1 & Hf1).
  assert (lookup_path t1 p' = Some (Dir es')) as Hp1'.
  { rewrite Hf1; [done|]. by apply diverge_app_l. }
  destruct (attach_spec p' x n t1 es' Hp1') as (t2 & Hd2 & Hp2 & Hf2).
  exists t2. split_and!.
  - unfold os_rename, bind, log, get_root, put_root, raise, ret. simpl.
    rewrite lookup_path_snoc, Hp, Hx.
    rewrite bool_decide_eq_false_2.
    2:{ intros E%app_inj_tail. destruct E as [-> _]. by apply diverge_irrefl in Hd. }
    assert (diverge (p ++ [x]) (p' ++ [x])) as [-> _].
    { by apply diverge_app_l, diverge_app_r. }
    rewrite lookup_path_snoc, Hp'.
    apply assoc_None in Hfresh. rewrite Hfresh.
    rewrite Hd1. simpl. rewrite Hd2. by destruct n.
  - rewrite Hf2; [done|]. by apply diverge_app_l, diverge_sym.
  - rewrite Hp2. unfold add_entry. by rewrite remove_entry_fresh.
  - intros q H1 H2. rewrite Hf2 by done. by apply Hf1.
Qed.

Lemma filter_not_pyc_cons (e : string) (n : node) es :
  filter not_pyc ((e, n) :: es) =
  if endswith ".pyc" e then filter not_pyc es else (e, n) :: filter not_pyc es.
Proof.
  rewrite filter_cons. destruct (endswith ".pyc" e) eqn:E.
  - rewrite decide_False; [done|]. unfold not_pyc. simpl. by rewrite E.
  - by rewrite decide_True.
Qed.

Lemma relocate_loop (S E : path) :
  diverge S E →
  ∀ todo acc t tr,
    lookup_path t S = Some (Dir todo) → NoDup (names todo) →
    lookup_path t E = Some (Dir acc) →
    (∀ x, x ∈ names todo → x ∉ names acc) →
    Forall (λ e, endswith ".pyc" e.1 = true → is_dir e.2 = false) todo →
    ∃ t' tr',
      mapM_ (relocate_entry S E) (names todo) (mkWorld t tr) =
        (Ok tt, mkWorld t' tr') ∧
      lookup_path t' S = Some (Dir []) ∧
      lookup_path t' E = Some (Dir (acc ++ filter not_pyc todo)) ∧
      ∀ q, diverge S q → diverge E q → lookup_path t' q = lookup_path t q.
Proof.
  intros Hd. induction todo as [|[e n] todo IH]; intros acc t tr HS Hnd HE Hacc Hpyc.
  - exists t, tr. simpl. rewrite app_nil_r. by split_and!.
  - unfold names in Hnd. simpl in Hnd. apply NoDup_cons in Hnd as [He Hnd].
    apply Forall_cons in Hpyc as [Hn Hpyc]. simpl in Hn.
    assert (assoc e ((e, n) :: todo) = Some n) as Hassoc.
    { simpl. by rewrite String.eqb_refl. }
    simpl. unfold bind. unfold relocate_entry at 1.
    rewrite filter_not_pyc_cons.
    destruct (endswith ".pyc" e) eqn:Hpy.
    + destruct n as [c|]; [|specialize (Hn eq_refl); discriminate Hn].
      destruct (os_unlink_file S e c t tr _ HS Hassoc) as (t1 & -> & HS1 & Hf1).
      rewrite remove_entry_head in HS1 by done.
      assert (lookup_path t1 E = Some (Dir acc)) as HE1.
      { rewrite Hf1; [done|]. by apply diverge_app_l. }
      assert (∀ x, x ∈ names todo → x ∉ names acc) as Hacc1.
      { intros x Hx. apply Hacc. unfold names. simpl. by right. }
      destruct (IH acc t1 (tr ++ [Unlink (S ++ [e])]) HS1 Hnd HE1 Hacc1 Hpyc)
        as (t' & tr' & -> & ? & ? & Hf).
      exists t', tr'. split_and!; [done..|].
      intros q H1 H2. rewrite Hf by done. apply Hf1. by apply diverge_app_l.
    + assert (e ∉ names acc) as Hfresh.
      { apply Hacc. unfold names. simpl. by left. }
      destruct (os_rename_fresh S E e n t tr _ acc Hd HS Hassoc HE Hfresh)
        as (t1 & -> & HS1 & HE1 & Hf1).
      rewrite remove_entry_head in HS1 by done.
      assert (∀ x, x ∈ names todo → x ∉ names (acc ++ [(e, n)])) as Hacc1.
      { intros x Hx. unfold names. rewrite fmap_app, not_elem_of_app. split.
        - apply Hacc. unfold names. simpl. by right.
        - simpl. rewrite list_elem_of_singleton. by intros ->. }
      destruct (IH (acc ++ [(e, n)]) t1 (tr ++ [Rename (S ++ [e]) (E ++ [e])])
                  HS1 Hnd HE1 Hacc1 Hpyc) as (t' & tr' & -> & ? & HE' & Hf).
      exists t', tr'. split_and!; [done|done|by rewrite <- app_assoc in HE'|].
      intros q H1 H2. rewrite Hf by done.
      apply Hf1; by apply diverge_app_l.
Qed.

Lemma names_filter_subset (P : string * node → Prop) `{∀ e, Decision (P e)}
    (es : list (string * node)) (x : string) :
  x ∈ names (filter P es) → x ∈ names es.
Proof.
  unfold names. rewrite !list_elem_of_fmap. intros (e & -> & He).
  apply list_elem_of_filter in He as [_ He]. by exists e.
Qed.

Lemma assoc_filter_not_pyc (es : list (string * node)) (e : string) (n : node) :
  NoDup (names es) → (e, n) ∈ es →
  assoc e (filter not_pyc es) = if endswith ".pyc" e then None else Some n.
Proof.
  induction es as [|[e' n'] es IH]; intros Hnd Hin.
  - by apply elem_of_nil in Hin.
  - unfold names in Hnd. simpl in Hnd. apply NoDup_cons in Hnd as [He' Hnd].
    rewrite filter_not_pyc_cons.
    apply elem_of_cons in Hin as [[= -> ->]|Hin].
    + destruct (endswith ".pyc" e'); [|simpl; by rewrite String.eqb_refl].
      apply assoc_None. intros Hx. by apply names_filter_subset in Hx.
    + assert (e ≠ e') as Hne.
      { intros ->. apply He'. apply list_elem_of_fmap. by exists (e', n). }
      destruct (endswith ".pyc" e'); [by apply IH|]. simpl.
      destruct (String.eqb_spec e e'); [done|by apply IH].
Qed.

Lemma snoc2 {A} (l : list A) (a b : A) : l ++ [a; b] = (l ++ [a]) ++ [b].
Proof. by rewrite <- app_assoc. Qed.

Lemma snoc3 {A} (l : list A) (a b c : A) :
  l ++ [a; b; c] = ((l ++ [a]) ++ [b]) ++ [c].
Proof. by rewrite <- !app_assoc. Qed.

(** C8: when the data directory has a [scripts] directory, in a tree where
    names are unique, [EGG-INFO] is a directory without an entry [scripts],
    and the entries that end in [.pyc] are files, the relocation runs to its
    end and then: the source [scripts] directory is gone; [EGG-INFO/scripts],
    which was not there before, holds exactly the entries that do not end in
    [.pyc], each as it was; an entry that ends in [.pyc] is not there; and
    every path that leads neither to nor from the two [scripts] directories
    is as before, so the deleted entries are nowhere in the final tree. *)
Theorem relocate_scripts_spec (destination_eggdir : path) (d : string)
    (t : node) (tr : list syscall) (entries eggs : list (string * node)) :
  d ≠ "EGG-INFO" →
  lookup_path t (destination_eggdir ++ [d; "scripts"]) = Some (Dir entries) →
  NoDup (names entries) →
  Forall (λ e, endswith ".pyc" e.1 = true → is_dir e.2 = false) entries →
  lookup_path t (destination_eggdir ++ ["EGG-INFO"]) = Some (Dir eggs) →
  "scripts" ∉ names eggs →
  ∃ t' tr',
    relocate_scripts destination_eggdir (destination_eggdir ++ [d])
      (mkWorld t tr) = (Ok tt, mkWorld t' tr') ∧
    lookup_path t' (destination_eggdir ++ [d; "scripts"]) = None ∧
    lookup_path t (destination_eggdir ++ ["EGG-INFO"; "scripts"]) = None ∧
    lookup_path t' (destination_eggdir ++ ["EGG-INFO"; "scripts"]) =
      Some (Dir (filter not_pyc entries)) ∧
    Forall (λ e,
      lookup_path t' (destination_eggdir ++ ["EGG-INFO"; "scripts"; e.1]) =
        if endswith ".pyc" e.1 then None else Some e.2) entries ∧
    ∀ q, diverge (destination_eggdir ++ [d; "scripts"]) q →
         diverge (destination_eggdir ++ ["EGG-INFO"; "scripts"]) q →
         lookup_path t' q = lookup_path t q.
Proof.
  intros Hd HS Hnd Hpyc HEI Hfresh.
  setoid_rewrite snoc3. rewrite !snoc2 in *.
  set (S := (destination_eggdir ++ [d]) ++ ["scripts"]) in *.
  set (EI := destination_eggdir ++ ["EGG-INFO"]) in *.
  assert (diverge S (EI ++ ["scripts"])) as HSE.
  { unfold S, EI. apply (diverge_app_l (destination_eggdir ++ [d])).
    rewrite <- snoc2. by apply diverge_snoc_ne. }
  assert (lookup_path t (EI ++ ["scripts"]) = None) as HE0.
  { rewrite lookup_path_snoc, HEI. by apply assoc_None. }
  (* os.mkdir(egg_info_scripts) *)
  destruct (attach_spec EI "scripts" (Dir []) t eggs HEI) as (t1 & Ha & HEI1 & Hf1).
  assert (lookup_path t1 (EI ++ ["scripts"]) = Some (Dir [])) as HE1.
  { by rewrite lookup_path_snoc, HEI1, assoc_add_entry_eq. }
  assert (lookup_path t1 S = Some (Dir entries)) as HS1.
  { rewrite Hf1; [done|]. by apply diverge_sym. }
  (* the loop *)
  destruct (relocate_loop S (EI ++ ["scripts"]) HSE entries [] t1
              (tr ++ [Mkdir (EI ++ ["scripts"])]) HS1 Hnd HE1)
    as (t2 & tr2 & Hloop & HS2 & HE2 & Hf2); [|done|].
  { intros x _. apply not_elem_of_nil. }
  (* os.rmdir(dist_data_scripts) *)
  assert (∃ dd, lookup_path t2 (destination_eggdir ++ [d]) = Some (Dir dd))
    as [dd Hdd].
  { unfold S in HS2. rewrite lookup_path_snoc in HS2.
    destruct (lookup_path t2 (destination_eggdir ++ [d])) as [[|dd]|]; [done| |done].
    by exists dd. }
  destruct (detach_spec _ "scripts" t2 dd Hdd) as (t3 & Hdet & Hdd3 & Hf3).
  fold S in Hdet, Hf3.
  assert (lookup_path t3 (EI ++ ["scripts"]) =
          Some (Dir (filter not_pyc entries))) as HE3.
  { by rewrite Hf3. }
  exists t3, (tr2 ++ [Rmdir S]). split_and!.
  - unfold relocate_scripts. fold S. rewrite snoc2. fold EI.
    unfold bind at 1. unfold os_path_exists at 1, bind, get_root, ret. simpl.
    rewrite HS. rewrite bool_decide_eq_true_2 by done.
    unfold os_mkdir at 1, log, get_root, put_root, raise, bind. simpl.
    rewrite HE0, split_last_snoc, HEI, Ha.
    unfold os_listdir at 1, bind, get_root, ret. simpl. rewrite HS1.
    change (map fst entries) with (names entries).
    change (mapM_ _ (names entries)) with
      (mapM_ (relocate_entry S (EI ++ ["scripts"])) (names entries)).
    rewrite Hloop.
    unfold os_rmdir, log, get_root, put_root, bind. simpl.
    by rewrite HS2, Hdet.
  - unfold S. by rewrite lookup_path_snoc, Hdd3, assoc_remove_entry_eq.
  - done.
  - done.
  - rewrite Forall_forall. intros [e n] Hin. simpl.
    rewrite lookup_path_snoc, HE3. by apply assoc_filter_not_pyc.
  - intros q H1 H2. rewrite Hf3, Hf2 by done. apply Hf1. done.
Qed.

(** Settle a decidable statement about given values by evaluating it. *)
Ltac by_decide :=
  lazymatch goal with
  | |- ?P => apply (bool_decide_unpack P); vm_compute; exact I
  end.

(** The egg directory with the script [run] and its bytecode [run.pyc]:
    [run] alone arrives in [EGG-INFO/scripts]. *)
Lemma relocate_scripts_witness :
  ∃ t' tr',
    relocate_scripts ["egg"] (["egg"] ++ ["foo-1.0.data"])
      (mkWorld example_scripts_tree []) = (Ok tt, mkWorld t' tr') ∧
    lookup_path t' (["egg"] ++ ["foo-1.0.data"; "scripts"]) = None ∧
    lookup_path t' (["egg"] ++ ["EGG-INFO"; "scripts"]) =
      Some (Dir [("run", File "script")]).
Proof.
  destruct (relocate_scripts_spec ["egg"] "foo-1.0.data" example_scripts_tree []
              [("run.pyc", File "bytecode"); ("run", File "script")]
              [("PKG-INFO", File "")])
    as (t' & tr' & H1 & H2 & _ & H3 & _).
  - discriminate.
  - reflexivity.
  - by_decide.
  - by_decide.
  - reflexivity.
  - by_decide.
  - exists t', tr'. split; [exact H1|]. split; [exact H2|exact H3].
Defined.

(** * Further properties *)

(** ** More on file names and tags *)

Lemma basename_no_slash (p : string) : str_mem slash (basename p) = false.
Proof.
  induction p as [|c p IH]; [done|].
  cbn [basename]. destruct (str_mem slash (String c p)) eqn:E; done.
Qed.

Lemma basename_id (p : string) : str_mem slash p = false → basename p = p.
Proof. destruct p as [|c p]; [done|]. cbn [basename]. by intros ->. Qed.

Lemma basename_idemp (p : string) : basename (basename p) = basename p.
Proof. apply basename_id, basename_no_slash. Qed.

(** [p[:i] + p[i:]] is [p]. *)
Lemma path_head_basename (p : string) : path_head p +:+ basename p = p.
Proof.
  induction p as [|c p IH]; [done|].
  cbn [path_head basename]. destruct (str_mem slash (String c p)); [|done].
  rewrite append_cons. by rewrite IH.
Qed.

(** X1: the fields [Wheel.__init__] reads depend on the basename of the file
    name only: the whole name is accepted exactly when its basename alone is,
    with the same six fields, and an accepted name is kept whole in
    [filename]. *)
Theorem Wheel_init_basename (f : string) :
  match Wheel_init f, Wheel_init (basename f) with
  | Ok w, Ok w' => groups_of w = groups_of w' ∧ filename w = f
  | Raise e, Raise e' =>
      e = InvalidWheelName f ∧ e' = InvalidWheelName (basename f)
  | _, _ => False
  end.
Proof.
  unfold Wheel_init. rewrite basename_idemp.
  by destruct (WHEEL_NAME (basename f)).
Qed.

Lemma length_flat_map_const {A B} (f : A → list B) (l : list A) (n : nat) :
  (∀ x, length (f x) = n) → length (flat_map f l) = length l * n.
Proof.
  intros Hf. induction l as [|x l IH]; [done|].
  simpl. rewrite length_app, Hf, IH. done.
Qed.

Lemma length_split (sep : ascii) (s : string) :
  length (split sep s) = S (count_char sep s).
Proof.
  induction s as [|c s IH]; [done|]. simpl.
  destruct (Ascii.eqb c sep); simpl; [by rewrite IH|].
  destruct (split sep s); simpl in *; [done|]. done.
Qed.

(** X2: [tags()] yields one triple for every choice of a component of each
    field: their number is the product of the numbers of components, a field
    with [n] dots having [n + 1] of them. *)
Theorem tags_length (w : Wheel) :
  length (tags w) =
  S (count_char "." (py_version w)) * S (count_char "." (abi w)) *
  S (count_char "." (platform w)).
Proof.
  unfold tags.
  rewrite (length_flat_map_const _ _
             (S (count_char "." (abi w)) * S (count_char "." (platform w)))).
  - rewrite length_split. lia.
  - intros py. rewrite (length_flat_map_const _ _ (S (count_char "." (platform w)))).
    + by rewrite length_split.
    + intros a. by rewrite length_map, length_split.
Qed.

Lemma next_supported_true (supported : list tag) (ts : list tag) :
  (next_supported supported ts).1 = true ↔ ∃ t, t ∈ ts ∧ t ∈ supported.
Proof.
  destruct (next_supported_spec supported ts) as (rest & E & H).
  destruct (next_supported supported ts) as [b seen]; simpl in *.
  destruct b.
  - split; [intros _|done]. destruct H as (seen' & t & -> & Ht & _).
    exists t. split; [|done]. rewrite E, !elem_of_app, list_elem_of_singleton. auto.
  - split; [done|]. intros (t & Hin & Hs). destruct H as [_ Hall].
    rewrite Forall_forall in Hall. by destruct (Hall t Hin).
Qed.

(** X3: compatibility only grows with the supported tags: a wheel that is
    compatible stays so when tags are added to the supported ones, in any
    order; with no supported tag no wheel is compatible. *)
Theorem is_compatible_mono (supported supported' : list tag) (w : Wheel) :
  supported ⊆ supported' →
  is_compatible supported w = true →
  is_compatible supported' w = true ∧ is_compatible [] w = false.
Proof.
  unfold is_compatible. intros Hsub H. split.
  - apply next_supported_true in H as (t & Hin & Hs).
    apply next_supported_true. exists t. split; [done|by apply Hsub].
  - destruct (next_supported [] (tags w)).1 eqn:E; [|done].
    apply next_supported_true in E as (t & _ & Ht). by apply elem_of_nil in Ht.
Qed.

(** A universal wheel on a host that supports [py3-none-any]. *)
Lemma is_compatible_mono_witness :
  is_compatible [("py3", "none", "any"); ("py3", "cp36m", "linux_x86_64")]
    (mkWheel "foo-1.0-py2.py3-none-any.whl" "foo" "1.0" None "py2.py3"
       "none" "any") = true ∧
  is_compatible []
    (mkWheel "foo-1.0-py2.py3-none-any.whl" "foo" "1.0" None "py2.py3"
       "none" "any") = false.
Proof.
  apply (is_compatible_mono [("py3", "none", "any")]).
  - intros t Ht. apply elem_of_cons. by left; apply list_elem_of_singleton in Ht.
  - reflexivity.
Defined.

(** ** What the changing calls are *)

Section Emits.
Context (P : syscall → Prop).

Lemma emits_nil {A} (m : M A) : (∀ w, trace (m w).2 = trace w) → emits P m.
Proof. intros H w. exists []. by rewrite app_nil_r. Qed.

Lemma emits_ret {A} (a : A) : emits P (ret a).
Proof. by apply emits_nil. Qed.

Lemma emits_raise {A} (e : exn) : emits P (@raise A e).
Proof. by apply emits_nil. Qed.

Lemma emits_lift {A} (r : result A) : emits P (lift r).
Proof. by apply emits_nil. Qed.

Lemma emits_get_root : emits P get_root.
Proof. by apply emits_nil. Qed.

Lemma emits_put_root (o : option node) (e : errno) (p : path) :
  emits P (put_root o e p).
Proof. apply emits_nil. intros w. unfold put_root. by destruct o. Qed.

Lemma emits_log (c : syscall) : P c → emits P (log c).
Proof. intros Hc w. exists [c]. split; [done|]. by constructor. Qed.

Lemma emits_bind {A B} (m : M A) (k : A → M B) :
  emits P m → (∀ a, emits P (k a)) → emits P (bind m k).
Proof.
  intros Hm Hk w. unfold bind. destruct (Hm w) as (l & Hl & HP).
  destruct (m w) as [[a|e] w1]; simpl in *.
  - destruct (Hk a w1) as (l' & Hl' & HP'). exists (l ++ l').
    split; [by rewrite Hl', Hl, app_assoc|by apply Forall_app].
  - by exists l.
Qed.

Lemma emits_try (m : M unit) : emits P m → emits P (try_OSError m).
Proof.
  intros Hm w. unfold try_OSError. destruct (Hm w) as (l & Hl & HP).
  exists l. by destruct (m w) as [[?|[]] ?].
Qed.

Lemma emits_mapM_ {A} (f : A → M unit) (l : list A) :
  (∀ a, a ∈ l → emits P (f a)) → emits P (mapM_ f l).
Proof.
  induction l as [|a l IH]; intros Hf; simpl.
  - apply emits_ret.
  - apply emits_bind.
    + apply Hf. by left.
    + intros _. apply IH. intros b Hb. apply Hf. by right.
Qed.

Lemma emits_os_path_exists p : emits P (os_path_exists p).
Proof. by apply emits_nil. Qed.

Lemma emits_os_path_exists_named a : emits P (os_path_exists_named a).
Proof. by apply emits_nil. Qed.

Lemma emits_os_path_isdir p : emits P (os_path_isdir p).
Proof. by apply emits_nil. Qed.

Lemma emits_os_listdir p : emits P (os_listdir p).
Proof.
  apply emits_nil. intros w. unfold os_listdir, bind, get_root. simpl.
  by destruct (lookup_path (root w) p) as [[]|].
Qed.

Lemma emits_read_file p : emits P (read_file p).
Proof.
  apply emits_nil. intros w. unfold read_file, bind, get_root. simpl.
  by destruct (lookup_path (root w) p) as [[]|].
Qed.

(** One changing call: the call is recorded, and what follows records
    nothing. *)
Lemma emits_call {A} (c : syscall) (k : M A) :
  P c → (∀ w, trace (k w).2 = trace w) → emits P (log c >>> k).
Proof.
  intros Hc Hk w. exists [c]. split; [|by constructor].
  unfold bind, log. simpl. by rewrite Hk.
Qed.

Lemma emits_os_mkdir p : P (Mkdir p) → emits P (os_mkdir p).
Proof.
  intros H. apply emits_call; [done|]. intros w.
  unfold bind, get_root, raise, put_root. simpl.
  destruct (lookup_path (root w) p); [done|].
  destruct (split_last p) as [[q x]|]; [|done].
  destruct (lookup_path (root w) q) as [[|es]|]; [done| |done].
  by destruct (attach p (Dir []) (root w)).
Qed.

Lemma emits_os_rmdir p : P (Rmdir p) → emits P (os_rmdir p).
Proof.
  intros H. apply emits_call; [done|]. intros w.
  unfold bind, get_root, raise, put_root. simpl.
  destruct (lookup_path (root w) p) as [[|[|??]]|]; try done.
  by destruct (detach p (root w)).
Qed.

Lemma emits_os_unlink p : P (Unlink p) → emits P (os_unlink p).
Proof.
  intros H. apply emits_call; [done|]. intros w.
  unfold bind, get_root, raise, put_root. simpl.
  destruct (lookup_path (root w) p) as [[|]|]; try done.
  by destruct (detach p (root w)).
Qed.

Lemma emits_os_rename p q : P (Rename p q) → emits P (os_rename p q).
Proof.
  intros H. apply emits_call; [done|]. intros w.
  unfold bind, get_root, raise, put_root, ret. simpl.
  destruct (lookup_path (root w) p) as [n|]; [|done].
  case_bool_decide; [done|]. destruct (is_prefix p q); [done|].
  destruct (lookup_path (root w) q) as [[|[|??]]|], n;
    try done; by destruct (detach p (root w) ≫= attach q _).
Qed.

Lemma emits_write_file p s : P (WriteFile p) → emits P (write_file p s).
Proof.
  intros H. apply emits_call; [done|]. intros w.
  unfold bind, get_root, raise, put_root. simpl.
  destruct (lookup_path (root w) p) as [[|]|]; try done;
    by destruct (attach p (File s) (root w)).
Qed.

Lemma is_prefix_refl (p : path) : is_prefix p p = true.
Proof. apply is_prefix_spec. exists []. by rewrite app_nil_r. Qed.

Lemma is_prefix_take (n : nat) (p : path) : is_prefix (take n p) p = true.
Proof. apply is_prefix_spec. exists (drop n p). by rewrite take_drop. Qed.

Lemma elem_of_ancestors (q p : path) : q ∈ ancestors p → is_prefix q p = true.
Proof.
  unfold ancestors. rewrite list_elem_of_fmap. intros (n & -> & _).
  apply is_prefix_take.
Qed.

Lemma emits_os_makedirs p :
  (∀ q, is_prefix q p = true → P (Mkdir q)) → emits P (os_makedirs p).
Proof.
  intros H. unfold os_makedirs. apply emits_bind.
  - apply emits_mapM_. intros q Hq. apply emits_bind.
    + apply emits_os_path_exists.
    + intros [|]; [apply emits_ret|].
      apply emits_os_mkdir, H. by apply elem_of_ancestors.
  - intros _. apply emits_os_mkdir, H, is_prefix_refl.
Qed.

Lemma emits_prune ps : (∀ q, q ∈ ps → P (Rmdir q)) → emits P (prune ps).
Proof.
  induction ps as [|q ps IH]; intros H; simpl; [apply emits_ret|].
  intros w. destruct (emits_os_rmdir q (H q ltac:(by left)) w) as (l & Hl & HP).
  destruct (os_rmdir q w) as [[?|?] w1]; simpl in *; [|by exists l].
  destruct (IH (λ q' Hq', H q' ltac:(by right)) w1) as (l' & Hl' & HP').
  exists (l ++ l'). split; [by rewrite Hl', Hl, app_assoc|by apply Forall_app].
Qed.

Lemma emits_os_removedirs p :
  (∀ q, is_prefix q p = true → P (Rmdir q)) → emits P (os_removedirs p).
Proof.
  intros H. unfold os_removedirs. apply emits_bind.
  - apply emits_os_rmdir, H, is_prefix_refl.
  - intros _. apply emits_prune. intros q Hq. apply H.
    apply elem_of_app in Hq as [Hq|Hq].
    + rewrite elem_of_reverse in Hq. by apply elem_of_ancestors.
    + apply list_elem_of_singleton in Hq as ->. done.
Qed.

Lemma emits_os_renames old new :
  P (Rename old new) →
  (∀ q, is_prefix q (parent new) = true → P (Mkdir q)) →
  (∀ q, is_prefix q (parent old) = true → P (Rmdir q)) →
  emits P (os_renames old new).
Proof.
  intros H1 H2 H3. unfold os_renames. apply emits_bind.
  - apply emits_bind; [apply emits_os_path_exists|].
    intros [|]; simpl; [apply emits_ret|by apply emits_os_makedirs].
  - intros _. apply emits_bind; [by apply emits_os_rename|].
    intros _. by apply emits_try, emits_os_removedirs.
Qed.

(** A walk whose body keeps to [P] on the directories that satisfy [Q]. *)
Lemma emits_os_walk (Q : path → Prop) limit body top :
  (∀ p ds fs, Q p → emits P (body p ds fs)) →
  (∀ p d, Q p → Q (p ++ [d])) →
  Q top → emits P (os_walk limit body top).
Proof.
  intros Hb HQ. revert top. induction limit as [|limit IH]; intros top Htop; simpl.
  - apply emits_raise.
  - apply emits_bind; [apply emits_get_root|]. intros t.
    destruct (lookup_path t top) as [[|es]|]; try apply emits_ret.
    apply emits_bind; [by apply Hb|]. intros dirnames.
    apply emits_mapM_. intros d _. apply IH. by apply HQ.
Qed.
End Emits.

Lemma emits_weaken {A} (P Q : syscall → Prop) (m : M A) :
  (∀ c, P c → Q c) → emits P m → emits Q m.
Proof.
  intros H Hm w. destruct (Hm w) as (l & Hl & HP). exists l.
  split; [done|]. by eapply Forall_impl.
Qed.

Lemma parent_snoc (p : path) (x : string) : parent (p ++ [x]) = p.
Proof. unfold parent. by rewrite split_last_snoc. Qed.

Lemma is_prefix_trans (a b c : path) :
  is_prefix a b = true → is_prefix b c = true → is_prefix a c = true.
Proof.
  rewrite !is_prefix_spec. intros [r ->] [r' ->]. exists (r ++ r').
  by rewrite app_assoc.
Qed.

(** Two paths that lead to the same place lie one on the other. *)
Lemma is_prefix_comparable (a b c : path) :
  is_prefix a c = true → is_prefix b c = true →
  is_prefix a b = true ∨ is_prefix b a = true.
Proof.
  revert b c. induction a as [|x a IH]; intros b c Ha Hb; [by left|].
  destruct b as [|y b]; [by right|]. destruct c as [|z c]; [done|].
  simpl in *. apply andb_true_iff in Ha as [Hx Ha].
  apply andb_true_iff in Hb as [Hy Hb].
  apply String.eqb_eq in Hx as ->. apply String.eqb_eq in Hy as ->.
  rewrite String.eqb_refl. simpl. by eapply IH.
Qed.

(** ** The calls of [unpack] *)

Lemma emits_unpack_renames (src_dir dst_dir dirpath : path) (x : string) :
  is_prefix src_dir dirpath = true →
  emits (unpack_call src_dir dst_dir)
    (os_renames (dirpath ++ [x])
       (dst_dir ++ relpath dirpath src_dir ++ [x])).
Proof.
  intros Hsrc. apply emits_os_renames.
  - split.
    + eapply is_prefix_trans; [done|apply is_prefix_app].
    + apply is_prefix_app.
  - intros q Hq. rewrite app_assoc, parent_snoc in Hq. simpl.
    eapply is_prefix_comparable; [done|]. apply is_prefix_app.
  - intros q Hq. rewrite parent_snoc in Hq. simpl.
    by eapply is_prefix_comparable.
Qed.

Lemma emits_unpack_dirs (src_dir dst_dir dirpath : path) todo dirnames :
  is_prefix src_dir dirpath = true →
  emits (unpack_call src_dir dst_dir)
    (unpack_dirs dst_dir dirpath (relpath dirpath src_dir) todo dirnames).
Proof.
  intros Hsrc. revert dirnames.
  induction todo as [|[n d] todo IH]; intros dirnames; simpl.
  - apply emits_ret.
  - apply emits_bind; [apply emits_os_path_exists|]. intros [|]; simpl.
    + apply IH.
    + apply emits_bind; [by apply emits_unpack_renames|]. intros _. apply IH.
Qed.

Lemma emits_unpack (limit : nat) (src_dir dst_dir : path) :
  emits (unpack_call src_dir dst_dir) (unpack limit src_dir dst_dir).
Proof.
  unfold unpack. apply emits_bind; [|intros _];
    apply (emits_os_walk _ (λ p, is_prefix src_dir p = true)).
  - intros p ds fs Hp. unfold unpack_move. apply emits_bind.
    + apply emits_mapM_. intros f _. by apply emits_unpack_renames.
    + intros _. by apply emits_unpack_dirs.
  - intros p d Hp. eapply is_prefix_trans; [done|apply is_prefix_app].
  - apply is_prefix_refl.
  - intros p ds fs Hp. unfold unpack_cleanup.
    apply emits_bind; [case_bool_decide; [apply emits_ret|apply emits_raise]|].
    intros _. apply emits_bind; [|intros _; apply emits_ret].
    apply emits_os_rmdir. simpl. by right.
  - intros p d Hp. eapply is_prefix_trans; [done|apply is_prefix_app].
  - apply is_prefix_refl.
Qed.

(** X4: the changing calls [unpack] makes are renamings from under the
    source directory to under the destination directory, the making of
    directories on the way to the destination or under it, and the removal
    of directories under the source or on the way to it, which are its
    parents: [os.renames] prunes them too when they are left empty.
    [unpack] never unlinks a file and never writes one. *)
Theorem unpack_calls (limit : nat) (src_dir dst_dir : path) (w : world) :
  ∃ l, trace (unpack limit src_dir dst_dir w).2 = trace w ++ l ∧
       Forall (unpack_call src_dir dst_dir) l.
Proof. apply emits_unpack. Qed.

(** ** The calls of the installation *)

(** Take a computation apart down to its calls; what is asked of a call that
    the predicate lets pass is settled at once. *)
Ltac emits :=
  repeat
    lazymatch goal with
    | |- emits _ (bind _ _) => apply emits_bind
    | |- emits _ (mapM_ _ _) => apply emits_mapM_
    | |- emits _ (try_OSError _) => apply emits_try
    | |- emits _ (ret _) => apply emits_ret
    | |- emits _ (raise _) => apply emits_raise
    | |- emits _ (lift _) => apply emits_lift
    | |- emits _ get_root => apply emits_get_root
    | |- emits _ (os_path_exists _) => apply emits_os_path_exists
    | |- emits _ (os_path_exists_named _) => apply emits_os_path_exists_named
    | |- emits _ (os_path_isdir _) => apply emits_os_path_isdir
    | |- emits _ (os_listdir _) => apply emits_os_listdir
    | |- emits _ (read_file _) => apply emits_read_file
    | |- emits _ (os_mkdir _) => apply emits_os_mkdir
    | |- emits _ (os_rmdir _) => apply emits_os_rmdir
    | |- emits _ (os_rename _ _) => apply emits_os_rename
    | |- emits _ (write_file _ _) => apply emits_write_file
    | |- emits _ (os_makedirs _) => apply emits_os_makedirs
    | |- emits _ (if ?b then _ else _) => destruct b
    | |- emits _ (match ?x with _ => _ end) => destruct x
    | |- ∀ _, _ => intro
    | |- _ => exact I
    end.

Lemma emits_extractall (P : syscall → Prop) zf p :
  (∀ q, P (Mkdir q)) → (∀ q, P (WriteFile q)) → emits P (extractall zf p).
Proof. intros H1 H2. unfold extractall, extract_member. emits; auto. Qed.

Lemma emits_relocate_scripts (self : Wheel) (dest : path) :
  emits (install_unlink self dest)
    (relocate_scripts dest (dist_data_dir self dest)).
Proof.
  unfold relocate_scripts.
  apply emits_bind; [apply emits_os_path_exists|]. intros [|]; [|apply emits_ret].
  apply emits_bind; [by apply emits_os_mkdir|intros _].
  apply emits_bind; [apply emits_os_listdir|intros entries].
  apply emits_bind; [|intros _; by apply emits_os_rmdir].
  apply emits_mapM_. intros entry _.
  destruct (endswith ".pyc" entry) eqn:E; [|by apply emits_os_rename].
  apply emits_os_unlink. left. exists entry. by rewrite <- app_assoc.
Qed.

Lemma emits_fix_namespace_packages (P : syscall → Prop) host egg dest :
  (∀ q, P (WriteFile q)) → emits P (_fix_namespace_packages host egg dest).
Proof. intros H. unfold _fix_namespace_packages. emits; auto. Qed.

Lemma emits_write_or_delete_file (P : syscall → Prop) p s :
  P (WriteFile p) → P (Unlink p) → emits P (write_or_delete_file p s).
Proof.
  intros Hw Hu. unfold write_or_delete_file.
  destruct (negb (String.eqb s "")); [by apply emits_write_file|].
  apply emits_bind; [apply emits_os_path_exists|].
  intros [|]; [by apply emits_os_unlink|apply emits_ret].
Qed.

(** X5: the only files the installation unlinks are entries of the
    [scripts] directory of the wheel's data directory whose names end in
    [.pyc], and [EGG-INFO/requires.txt] in the destination, which
    [write_requirements] deletes when there is no requirement to write;
    every other changing call is a [mkdir], a [rename], a write or a
    [rmdir]. *)
Theorem install_unlinks (host : Host) (self : Wheel)
    (destination_eggdir : path) (zf : ZipFile) (w : world) :
  ∃ l, trace (_install_as_egg host self destination_eggdir zf w).2 =
         trace w ++ l ∧
       Forall (install_unlink self destination_eggdir) l.
Proof.
  revert w.
  change (emits (install_unlink self destination_eggdir)
            (_install_as_egg host self destination_eggdir zf)).
  unfold _install_as_egg.
  fold (dist_data_dir self destination_eggdir).
  apply emits_bind; [apply emits_lift|intros dist_info].
  apply emits_bind; [apply emits_lift|intros wheel_metadata].
  apply emits_bind; [apply emits_lift|intros wheel_version].
  apply emits_bind; [apply emits_lift|intros _].
  apply emits_bind; [by apply emits_os_mkdir|intros _].
  apply emits_bind; [by apply emits_extractall|intros _].
  apply emits_bind; [apply emits_read_file|intros metadata].
  apply emits_bind; [by apply emits_os_rename|intros _].
  apply emits_bind; [by apply emits_os_rename|intros _].
  apply emits_bind.
  { apply emits_write_or_delete_file; [done|]. right. by rewrite <- app_assoc. }
  intros _.
  apply emits_bind; [apply emits_relocate_scripts|intros _].
  apply emits_bind.
  { apply emits_mapM_. intros d _.
    apply emits_bind; [apply emits_os_path_exists|]. intros [|]; [|apply emits_ret].
    eapply emits_weaken; [|apply emits_unpack]. by intros []. }
  intros _. apply emits_bind.
  { apply emits_bind; [apply emits_os_path_exists|].
    intros [|]; [by apply emits_os_rmdir|apply emits_ret]. }
  intros _. by apply emits_fix_namespace_packages.
Qed.

(** ** Namespace packages *)

Lemma evolves_refl (o : option node) : evolves o o.
Proof. destruct o as [[c|es]|]; simpl; [done|by exists es|by left]. Qed.

Lemma evolves_trans (a b c : option node) :
  evolves a b → evolves b c → evolves a c.
Proof.
  destruct a as [[?|?]|]; simpl.
  - by intros ->.
  - by intros [es ->].
  - intros [->| ->]; [done|]. simpl. intros ->. by right.
Qed.

Lemma with_dir_prefix_dir (p : path) f (t t' : node) (q : path) :
  with_dir p f t = Some t' → is_prefix q p = true →
  ∃ es, lookup_path t' q = Some (Dir es).
Proof.
  revert t t' q. induction p as [|x p IH]; intros [|es0] t' q H Hq; simpl in *;
    try done.
  - destruct q; [|done]. injection H as <-. by eexists.
  - destruct (assoc x es0) as [c|] eqn:Hc; simpl in H; [|done].
    destruct (with_dir p f c) as [c'|] eqn:Hw; simpl in H; [|done].
    injection H as <-. destruct q as [|y q]; [by eexists|].
    simpl in Hq. apply andb_true_iff in Hq as [Hy Hq].
    apply String.eqb_eq in Hy as ->. simpl.
    erewrite assoc_set_entry_eq by done. simpl. by eapply IH.
Qed.

Lemma lookup_prefix_dir (t n : node) (p q : path) :
  lookup_path t p = Some n → is_prefix q p = true → q ≠ p →
  ∃ es, lookup_path t q = Some (Dir es).
Proof.
  intros Hp Hq Hne. apply is_prefix_spec in Hq as [r ->].
  destruct r as [|x r]; [by rewrite app_nil_r in Hne|].
  rewrite lookup_path_app in Hp.
  destruct (lookup_path t q) as [[c|es]|]; simpl in Hp; [done|by eexists|done].
Qed.

Lemma lookup_beyond_None (t : node) (p q : path) :
  lookup_path t p = None → is_prefix p q = true → lookup_path t q = None.
Proof.
  intros Hp Hq. apply is_prefix_spec in Hq as [r ->].
  by rewrite lookup_path_app, Hp.
Qed.

(** The paths compared with [p]: apart from it, before it, or from it on. *)
Lemma path_cases (p q : path) :
  diverge p q ∨ (is_prefix q p = true ∧ q ≠ p) ∨ is_prefix p q = true.
Proof.
  unfold diverge. destruct (is_prefix p q) eqn:E1; [by right; right|].
  destruct (is_prefix q p) eqn:E2; [|by left].
  right; left. split; [done|]. intros ->. by rewrite is_prefix_refl in E1.
Qed.

(** Writing a new file: what every path names evolves. *)
Lemma write_new_evolves (dir : path) (x : string) (w : world) :
  lookup_path (root w) (dir ++ [x]) = None →
  ∀ q, evolves (lookup_path (root w) q)
         (lookup_path (root (write_file (dir ++ [x]) NAMESPACE_PACKAGE_INIT w).2) q).
Proof.
  intros Hnew q. unfold write_file, bind, log, get_root, put_root. simpl.
  rewrite Hnew. unfold attach. rewrite split_last_snoc. simpl.
  destruct (with_dir dir _ (root w)) as [t'|] eqn:Hw; simpl; [|apply evolves_refl].
  destruct (lookup_path (root w) dir) as [[c|es]|] eqn:Hdir.
  - destruct (root w) as [|es0] eqn:Er.
    + by destruct dir.
    + exfalso. clear -Hw Hdir. revert es0 t' Hw Hdir.
      induction dir as [|y dir IH]; intros es0 t' Hw Hdir; simpl in *; [done|].
      destruct (assoc y es0) as [n|]; simpl in *; [|done].
      destruct n as [|es1]; [by destruct dir|].
      destruct (with_dir dir _ (Dir es1)) eqn:E; simpl in *; [|done].
      by eapply IH.
  - destruct (with_dir_spec dir (add_entry x (File NAMESPACE_PACKAGE_INIT))
                (root w) es Hdir) as (t'' & Hw' & Hdir' & Hframe).
    rewrite Hw in Hw'. injection Hw' as <-.
    destruct (path_cases (dir ++ [x]) q) as [Hd|[[Hq Hne]|Hq]].
    + apply diverge_snoc_inv in Hd as [Hd|(y & r & -> & Hxy)].
      * rewrite Hframe by done. apply evolves_refl.
      * rewrite (lookup_under (root w) t' dir es _ y r Hdir Hdir')
          by (by apply assoc_add_entry_ne).
        apply evolves_refl.
    + assert (is_prefix q dir = true) as Hqd.
      { apply is_prefix_spec in Hq as [r Hr].
        destruct r as [|z r] using rev_ind; [by rewrite app_nil_r in Hr; subst|].
        rewrite app_assoc in Hr. apply app_inj_tail in Hr as [-> _].
        apply is_prefix_app. }
      destruct (with_dir_prefix_dir _ _ _ _ q Hw Hqd) as [es' ->].
      apply is_prefix_spec in Hqd as [r ->]. rewrite lookup_path_app in Hdir.
      destruct (lookup_path (root w) q) as [[?|?]|]; simpl in *.
      * by destruct r.
      * by eexists.
      * done.
    + rewrite (lookup_beyond_None _ _ _ Hnew Hq). simpl.
      apply is_prefix_spec in Hq as [r ->].
      rewrite lookup_path_app, lookup_path_snoc, Hdir', assoc_add_entry_eq. simpl.
      destruct r; [by right|by left].
  - exfalso. clear -Hw Hdir. revert t' Hw Hdir. generalize (root w).
    induction dir as [|y dir IH]; intros [|es0] t' Hw Hdir; simpl in *; try done.
    destruct (assoc y es0) as [n|]; simpl in *; [|done].
    destruct (with_dir dir _ n) eqn:E; simpl in *; [|done].
    by eapply IH.
Qed.

Lemma with_dir_inv (p : path) f (t t' : node) :
  with_dir p f t = Some t' → ∃ es, lookup_path t p = Some (Dir es).
Proof.
  revert t t'. induction p as [|x p IH]; intros [|es0] t' H; simpl in *;
    try done.
  - by eexists.
  - destruct (assoc x es0) as [c|]; simpl in *; [|done].
    destruct (with_dir p f c) as [c'|] eqn:Hw; simpl in *; [|done].
    by eapply IH.
Qed.

Lemma evolves_is_Some (a b : option node) : evolves a b → is_Some a → is_Some b.
Proof.
  intros H [n ->]. destruct n as [c|es]; simpl in H.
  - by rewrite H.
  - destruct H as [es' ->]. done.
Qed.

(** A write that succeeds leaves a file. *)
Lemma write_new_Ok (dir : path) (x s : string) (w : world) :
  (write_file (dir ++ [x]) s w).1 = Ok tt →
  is_Some (lookup_path (root (write_file (dir ++ [x]) s w).2) (dir ++ [x])).
Proof.
  unfold write_file, bind, log, get_root, put_root, raise. simpl.
  destruct (lookup_path (root w) (dir ++ [x])) as [[c|es]|] eqn:Hp; simpl;
    try done.
  all: unfold attach; rewrite split_last_snoc; simpl.
  all: destruct (with_dir dir _ (root w)) as [t'|] eqn:Hw; simpl; [|done].
  all: intros _; destruct (with_dir_inv _ _ _ _ Hw) as [es' Hdir].
  all: destruct (with_dir_spec dir (add_entry x (File s)) (root w) es' Hdir)
         as (t'' & Hw' & Hdir' & _).
  all: rewrite Hw in Hw'; injection Hw' as <-.
  all: by rewrite lookup_path_snoc, Hdir', assoc_add_entry_eq.
Qed.

Lemma evolves_exists_in (t t' : node) (a : named_path) :
  (∀ q, evolves (lookup_path t q) (lookup_path t' q)) →
  exists_in t a = true → exists_in t' a = true.
Proof.
  intros Hev. unfold exists_in. specialize (Hev a.1).
  destruct (lookup_path t a.1) as [[c|es]|]; simpl in Hev.
  - by rewrite Hev.
  - by destruct Hev as [es' ->].
  - done.
Qed.

(** One turn of the loop. *)
Lemma fix_namespace_package_step (dest : path) (mod_ : string) (w : world) :
  (∀ q, evolves (lookup_path (root w) q)
          (lookup_path (root (fix_namespace_package dest mod_ w).2) q)) ∧
  ((fix_namespace_package dest mod_ w).1 = Ok tt →
   exists_in (root w) (mod_dir dest mod_) = true →
   is_Some (lookup_path (root (fix_namespace_package dest mod_ w).2)
              ((mod_dir dest mod_).1 ++ ["__init__.py"]))).
Proof.
  unfold fix_namespace_package, os_path_exists_named, os_path_exists, bind,
    get_root, ret. simpl.
  fold (mod_dir dest mod_). set (md := mod_dir dest mod_).
  destruct (exists_in (root w) md) eqn:Hd;
    destruct (bool_decide (is_Some (lookup_path (root w) (md.1 ++ ["__init__.py"]))))
      eqn:Hi; simpl.
  - split; [intros q; apply evolves_refl|]. intros _ _.
    by apply bool_decide_eq_true in Hi.
  - apply bool_decide_eq_false in Hi.
    assert (lookup_path (root w) (md.1 ++ ["__init__.py"]) = None) as Hnew.
    { destruct (lookup_path (root w) (md.1 ++ ["__init__.py"])); [|done].
      by destruct Hi. }
    split; [by apply write_new_evolves|]. intros HOk _. by apply write_new_Ok.
  - split; [intros q; apply evolves_refl|]. by intros _ H.
  - split; [intros q; apply evolves_refl|]. by intros _ H.
Qed.

Lemma mapM__cons {A} (f : A → M unit) (a : A) (l : list A) (w : world) :
  mapM_ f (a :: l) w =
  match f a w with
  | (Ok _, w') => mapM_ f l w'
  | (Raise e, w') => (Raise e, w')
  end.
Proof. done. Qed.

(** The whole loop. *)
Lemma fix_namespace_package_loop (dest : path) (l : list string) (w : world) :
  (∀ q, evolves (lookup_path (root w) q)
          (lookup_path (root (mapM_ (fix_namespace_package dest) l w).2) q)) ∧
  ((mapM_ (fix_namespace_package dest) l w).1 = Ok tt →
   ∀ mod_, mod_ ∈ l →
     exists_in (root w) (mod_dir dest mod_) = true →
     is_Some (lookup_path (root (mapM_ (fix_namespace_package dest) l w).2)
                ((mod_dir dest mod_).1 ++ ["__init__.py"]))).
Proof.
  revert w. induction l as [|a l IH]; intros w.
  - split; [intros q; apply evolves_refl|]. intros _ mod_ H. by inversion H.
  - rewrite !mapM__cons.
    destruct (fix_namespace_package_step dest a w) as [Hev Hinit].
    destruct (fix_namespace_package dest a w) as [[[]|e] w1]; simpl in *.
    + destruct (IH w1) as [Hev' Hinit']. split.
      * intros q. eapply evolves_trans; [apply Hev|apply Hev'].
      * intros HOk mod_ Hin Hdir. apply elem_of_cons in Hin as [->|Hin].
        -- eapply evolves_is_Some; [apply Hev'|]. by apply Hinit.
        -- apply Hinit'; [done..|]. by eapply evolves_exists_in.
    + split; [done|]. done.
Qed.

Lemma fix_namespace_packages_unfold (host : Host) (egg dest : path)
    (w : world) :
  _fix_namespace_packages host egg dest w =
  match lookup_path (root w) (egg ++ ["namespace_packages.txt"]) with
  | None => (Ok tt, w)
  | Some (Dir _) => (Raise (OSError EISDIR (egg ++ ["namespace_packages.txt"])), w)
  | Some (File text) =>
      mapM_ (fix_namespace_package dest) (namespace_packages host egg w) w
  end.
Proof.
  unfold _fix_namespace_packages, namespace_packages, os_path_exists,
    read_file, bind, get_root, ret, raise. simpl.
  destruct (lookup_path (root w) (egg ++ ["namespace_packages.txt"]))
    as [[text|es]|] eqn:E; simpl; rewrite ?E; reflexivity.
Qed.

Lemma emits_fix_namespace_package (dest : path) (l : list string)
    (mod_ : string) :
  mod_ ∈ l → emits (writes_init l dest) (fix_namespace_package dest mod_).
Proof.
  intros Hin. unfold fix_namespace_package.
  apply emits_bind; [apply emits_os_path_exists_named|intros d].
  apply emits_bind; [apply emits_os_path_exists|intros i].
  destruct (d && negb i); [|apply emits_ret].
  apply emits_write_file. by exists mod_.
Qed.

Lemma os_path_join_under (dest : path) (p : list string) (a : named_path) :
  Forall (λ b, startswith "/" b = false) p →
  is_prefix dest a.1 = true →
  is_prefix dest (foldl os_path_join_step a p).1 = true.
Proof.
  intros Hp. revert a. induction Hp as [|b p Hb _ IH]; intros a Ha; [done|].
  simpl. apply IH. unfold os_path_join_step. rewrite Hb. simpl.
  apply is_prefix_spec in Ha as [r ->]. rewrite <- app_assoc.
  apply is_prefix_app.
Qed.

(** X6: fixing the namespace packages only adds.  Its changing calls are
    writes of [__init__.py] in the directory that a package listed in
    [namespace_packages.txt] names, its dotted parts joined to the
    destination; no file that exists is changed or removed, every directory
    stays a directory, and a path that named nothing names nothing or a new
    initializer afterwards.  That directory is in the destination when no
    part of the name begins with a slash. *)
Theorem fix_namespace_packages_only_adds (host : Host)
    (egg_info destination_eggdir : path) (w : world) :
  (∃ l, trace (_fix_namespace_packages host egg_info destination_eggdir w).2 =
          trace w ++ l ∧
        Forall (writes_init (namespace_packages host egg_info w)
                  destination_eggdir) l) ∧
  (∀ q, evolves (lookup_path (root w) q)
          (lookup_path
             (root (_fix_namespace_packages host egg_info destination_eggdir
                      w).2) q)) ∧
  (∀ mod_, relative mod_ →
     is_prefix destination_eggdir (mod_dir destination_eggdir mod_).1 = true).
Proof.
  split_and!.
  - rewrite fix_namespace_packages_unfold.
    destruct (lookup_path (root w) (egg_info ++ ["namespace_packages.txt"]))
      as [[text|es]|]; simpl; try (exists []; by rewrite app_nil_r).
    apply emits_mapM_. intros mod_ Hin. by apply emits_fix_namespace_package.
  - intros q. rewrite fix_namespace_packages_unfold.
    destruct (lookup_path (root w) (egg_info ++ ["namespace_packages.txt"]))
      as [[text|es]|]; simpl; try apply evolves_refl.
    apply fix_namespace_package_loop.
  - intros mod_ Hrel. apply os_path_join_under; [done|apply is_prefix_refl].
Qed.

(** X7: when fixing the namespace packages returns, every package listed in
    [namespace_packages.txt] whose directory [os.path.exists] found before
    has an [__init__.py] in it; where there was none it is the namespace
    initializer. *)
Theorem fix_namespace_packages_initializes (host : Host)
    (egg_info destination_eggdir : path) (mod_ : string) (w : world) :
  (_fix_namespace_packages host egg_info destination_eggdir w).1 = Ok tt →
  mod_ ∈ namespace_packages host egg_info w →
  exists_in (root w) (mod_dir destination_eggdir mod_) = true →
  ∃ n,
    lookup_path
      (root (_fix_namespace_packages host egg_info destination_eggdir w).2)
      ((mod_dir destination_eggdir mod_).1 ++ ["__init__.py"]) = Some n ∧
    (lookup_path (root w)
       ((mod_dir destination_eggdir mod_).1 ++ ["__init__.py"]) = None →
     n = File NAMESPACE_PACKAGE_INIT).
Proof.
  rewrite fix_namespace_packages_unfold. intros HOk Hin Hdir.
  assert (∃ text, lookup_path (root w) (egg_info ++ ["namespace_packages.txt"])
                  = Some (File text)) as [text Htxt].
  { unfold namespace_packages in Hin.
    destruct (lookup_path (root w) (egg_info ++ ["namespace_packages.txt"]))
      as [[text|es]|]; [by exists text|by inversion Hin..]. }
  rewrite Htxt in *.
  destruct (fix_namespace_package_loop destination_eggdir
              (namespace_packages host egg_info w) w) as [Hev Hinit].
  destruct (Hinit HOk mod_ Hin Hdir) as [n Hn]. exists n. split; [done|].
  intros Hnone.
  specialize (Hev ((mod_dir destination_eggdir mod_).1 ++ ["__init__.py"])).
  rewrite Hnone, Hn in Hev. simpl in Hev. destruct Hev as [?|?]; congruence.
Qed.

Lemma fix_namespace_packages_initializes_witness :
  ∃ n,
    lookup_path
      (root (_fix_namespace_packages example_host ["egg"; "EGG-INFO"] ["egg"]
               example_namespace_world).2)
      ((mod_dir ["egg"] "ns.").1 ++ ["__init__.py"]) = Some n ∧
    (lookup_path (root example_namespace_world)
       ((mod_dir ["egg"] "ns.").1 ++ ["__init__.py"]) = None →
     n = File NAMESPACE_PACKAGE_INIT).
Proof.
  apply (fix_namespace_packages_initializes example_host ["egg"; "EGG-INFO"]
           ["egg"] "ns.").
  - reflexivity.
  - by_decide.
  - reflexivity.
Defined.

(** ** Reading back a name *)

Section First_match.
Context {R : Type}.
Implicit Types k : string → string → option R.

(** The lazy repetition stops at the first place where what follows
    matches. *)
Lemma lazy_dots_first k acc x s r :
  no_newline x →
  (∀ a c b, x = a +:+ String c b → k (acc +:+ a) (String c b +:+ s) = None) →
  k (acc +:+ x) s = Some r →
  lazy_dots k acc (x +:+ s) = Some r.
Proof.
  revert acc. induction x as [|c x IH]; intros acc Hn Hfail Hk.
  - rewrite append_nil_r in Hk. rewrite append_nil_l.
    destruct s; simpl; by rewrite Hk.
  - apply no_newline_cons in Hn as [Hc Hn].
    rewrite append_cons. simpl.
    specialize (Hfail "" c x eq_refl) as H0.
    rewrite append_nil_r, append_cons in H0. rewrite H0, Hc.
    apply IH; [done| |].
    + intros a c' b ->. rewrite append_snoc.
      by apply (Hfail (String c a) c' b).
    + by rewrite append_snoc.
Qed.

Lemma lazy_dots1_first k x s r :
  x ≠ "" → no_newline x →
  (∀ a c b, a ≠ "" → x = a +:+ String c b → k a (String c b +:+ s) = None) →
  k x s = Some r →
  lazy_dots1 k (x +:+ s) = Some r.
Proof.
  destruct x as [|c x]; [done|]. intros _ Hn Hfail Hk.
  apply no_newline_cons in Hn as [Hc Hn].
  rewrite append_cons. unfold lazy_dots1. rewrite Hc.
  apply lazy_dots_first; [done| |done].
  intros a c' b ->. by apply (Hfail (String c a) c' b).
Qed.

Lemma digit_lazy_dots_first k x s r :
  starts_with_digit x → no_newline x →
  (∀ a c b, a ≠ "" → x = a +:+ String c b → k a (String c b +:+ s) = None) →
  k x s = Some r →
  digit_lazy_dots k (x +:+ s) = Some r.
Proof.
  destruct x as [|c x]; [done|]. intros Hd Hn Hfail Hk.
  apply no_newline_cons in Hn as [Hc Hn]. cbn [starts_with_digit] in Hd.
  rewrite append_cons. unfold digit_lazy_dots. rewrite Hd.
  apply lazy_dots_first; [done| |done].
  intros a c' b ->. by apply (Hfail (String c a) c' b).
Qed.
End First_match.

Lemma lit_hyphen_None (x a b s : string) (c : ascii) :
  no_hyphen x → x = a +:+ String c b → lit "-" (String c b +:+ s) = None.
Proof.
  unfold no_hyphen. intros H ->. rewrite str_mem_append in H.
  apply orb_false_iff in H as [_ H]. simpl in H.
  apply orb_false_iff in H as [H _]. rewrite append_cons.
  rewrite Ascii.eqb_sym in H. cbn [lit]. by rewrite H.
Qed.

Lemma count_char_append (c : ascii) (s t : string) :
  count_char c (s +:+ t) = count_char c s + count_char c t.
Proof.
  induction s as [|a s IH]; [done|]. rewrite append_cons. simpl.
  rewrite IH. lia.
Qed.

Lemma no_hyphen_count (s : string) : no_hyphen s → count_char "-" s = 0.
Proof.
  unfold no_hyphen. induction s as [|a s IH]; [done|]. cbn [str_mem count_char].
  intros H. apply orb_false_iff in H as [-> H]. by rewrite IH.
Qed.

(** The three tags need three hyphens. *)
Lemma wheel_name_tags_hyphens p v bo s g :
  wheel_name_tags p v bo s = Some g → (3 <= count_char "-" s)%nat.
Proof.
  intros H. apply wheel_name_tags_Some in H
    as (py & abi & plat & tail & -> & _). unfold tags_text.
  rewrite !count_char_append. cbn [count_char Ascii.eqb Bool.eqb]. simpl. lia.
Qed.

Lemma length_append (s t : string) :
  String.length (s +:+ t) = String.length s + String.length t.
Proof. induction s as [|a s IH]; [done|]. rewrite append_cons. simpl. by rewrite IH. Qed.

(** The extension is looked for at the end only. *)
Lemma whl_at_end_None {R} (g : R) (x a b : string) (c : ascii) :
  no_newline x → x = a +:+ String c b →
  (s ← lit ".whl" (String c b +:+ ".whl" +:+ ""); if at_end s then Some g else None)
  = None.
Proof.
  intros Hn ->. apply no_newline_append in Hn as [_ Hn].
  destruct (lit ".whl" _) as [r|] eqn:E; [|done]. simpl.
  destruct (at_end r) eqn:Hr; [|done]. exfalso.
  apply lit_Some in E. apply at_end_true in Hr as [-> | ->].
  - apply (f_equal String.length) in E. rewrite !length_append in E.
    simpl in E. lia.
  - assert (no_newline (String c b +:+ ".whl" +:+ "")) as Hn'.
    { apply no_newline_append. split; [done|]. reflexivity. }
    rewrite E in Hn'. by vm_compute in Hn'.
Qed.

(** The tags of a name whose tags have no hyphen are read back. *)
Lemma wheel_name_tags_first p v bo py abi plat :
  py ≠ "" → abi ≠ "" → plat ≠ "" →
  no_newline py → no_newline abi → no_newline plat →
  no_hyphen py → no_hyphen abi →
  wheel_name_tags p v bo (tags_text py abi plat "") =
  Some (mkGroups p v bo py abi plat).
Proof.
  intros Hpy Hab Hpl Npy Nab Npl Ypy Yab. unfold wheel_name_tags, tags_text.
  rewrite (lit_append "-"), mbind_Some. cbv beta.
  apply lazy_dots1_first; [done..| |].
  { intros a c b _ E. by rewrite (lit_hyphen_None py a b _ c). }
  rewrite (lit_append "-"), mbind_Some. cbv beta.
  apply lazy_dots1_first; [done..| |].
  { intros a c b _ E. by rewrite (lit_hyphen_None abi a b _ c). }
  rewrite (lit_append "-"), mbind_Some. cbv beta.
  apply lazy_dots1_first; [done..| |].
  { intros a c b _ E. by eapply whl_at_end_None. }
  by rewrite (lit_append ".whl"), mbind_Some.
Qed.

Lemma wheel_name_build_first p v bo py abi plat :
  (∀ b, bo = Some b → starts_with_digit b ∧ no_newline b ∧ no_hyphen b) →
  py ≠ "" → abi ≠ "" → plat ≠ "" →
  no_newline py → no_newline abi → no_newline plat →
  no_hyphen py → no_hyphen abi → no_hyphen plat →
  wheel_name_build p v (build_text bo +:+ tags_text py abi plat "") =
  Some (mkGroups p v bo py abi plat).
Proof.
  intros Hb Hpy Hab Hpl Npy Nab Npl Ypy Yab Ypl. unfold wheel_name_build.
  destruct bo as [b|]; unfold build_text.
  - destruct (Hb b eq_refl) as (Db & Nb & Yb).
    rewrite append_assoc, (lit_append "-"), mbind_Some.
    rewrite (digit_lazy_dots_first _ b _ (mkGroups p v (Some b) py abi plat));
      [done..| |].
    + intros a c b' _ E. unfold wheel_name_tags, tags_text. by rewrite (lit_hyphen_None b a b' _ c).
    + by apply wheel_name_tags_first.
  - rewrite append_nil_l.
    destruct (lit "-" (tags_text py abi plat "") ≫= _) as [g'|] eqn:E.
    + exfalso. unfold tags_text in E.
      rewrite (lit_append "-"), mbind_Some in E.
      apply digit_lazy_dots_Some in E as (a & b & E & _ & _ & H).
      apply wheel_name_tags_hyphens in H.
      apply (f_equal (count_char "-")) in E.
      rewrite !count_char_append in E.
      rewrite (no_hyphen_count py), (no_hyphen_count abi),
        (no_hyphen_count plat) in E by done.
      simpl in E. lia.
    + by apply wheel_name_tags_first.
Qed.

(** The pattern reads back a name written from fields without hyphens. *)
Lemma WHEEL_NAME_first (g : Groups) :
  fields_ok g → fields_no_newline g → fields_no_hyphen g →
  WHEEL_NAME (wheel_text g "") = Some g.
Proof.
  destruct g as [p v bo py abi plat].
  intros (Hp & Hv & Hb & Hpy & Hab & Hpl) (Np & Nv & Nb & Npy & Nab & Npl)
    (Yp & Yv & Yb & Ypy & Yab & Ypl). simpl in *.
  unfold WHEEL_NAME, wheel_text.
  cbn [g_project_name g_version g_build g_py_version g_abi g_platform].
  change ("-" +:+ py +:+ "-" +:+ abi +:+ "-" +:+ plat +:+ ".whl" +:+ "")
    with (tags_text py abi plat "").
  apply lazy_dots1_first; [done..| |].
  { intros a c b _ E. by rewrite (lit_hyphen_None p a b _ c). }
  rewrite (lit_append "-"), mbind_Some.
  apply digit_lazy_dots_first; [done..| |].
  { intros a c b _ E. unfold wheel_name_build, wheel_name_tags.
    by rewrite (lit_hyphen_None v a b _ c). }
  apply wheel_name_build_first; try done.
  intros b ->. split_and!; auto.
Qed.

(** X8: a file name written as
    [project-version[-build]-python-abi-platform.whl] from fields that hold no
    hyphen and no newline, the version and the build tag beginning with a
    digit, is read back into exactly these fields, whatever directory part
    comes before it. *)
Theorem Wheel_init_round_trip (f : string) (g : Groups) :
  basename f = wheel_text g "" →
  fields_ok g → fields_no_newline g → fields_no_hyphen g →
  ∃ w, Wheel_init f = Ok w ∧ filename w = f ∧ groups_of w = g.
Proof.
  intros Hf Hok Hn Hy. unfold Wheel_init.
  rewrite Hf, WHEEL_NAME_first by done. eexists. split; [done|].
  split; [done|]. by destruct g.
Qed.

Lemma Wheel_init_round_trip_witness :
  ∃ w, Wheel_init "dist/foo-1.0-1-py2.py3-none-any.whl" = Ok w ∧
       filename w = "dist/foo-1.0-1-py2.py3-none-any.whl" ∧
       groups_of w = mkGroups "foo" "1.0" (Some "1") "py2.py3" "none" "any".
Proof.
  apply (Wheel_init_round_trip "dist/foo-1.0-1-py2.py3-none-any.whl"
           (mkGroups "foo" "1.0" (Some "1") "py2.py3" "none" "any")).
  - reflexivity.
  - split_and!; try done. by intros b [= <-].
  - split_and!; try done. by intros b [= <-].
  - split_and!; try done. by intros b [= <-].
Defined.

(** ** Moving a directory's entries *)

Lemma split_last_Some (p P : path) (x : string) :
  split_last p = Some (P, x) → p = P ++ [x].
Proof.
  unfold split_last. destruct (reverse p) as [|y r] eqn:E; [done|].
  intros [= <- <-]. by rewrite <- reverse_cons, <- E, reverse_involutive.
Qed.

Lemma lookup_detached (p : path) (t t' : node) :
  detach p t = Some t' → lookup_path t' p = None.
Proof.
  unfold detach. destruct (split_last p) as [[P x]|] eqn:E; simpl; [|done].
  apply split_last_Some in E as ->.
  intros H. destruct (with_dir_inv _ _ _ _ H) as [es Hes].
  destruct (with_dir_spec P (remove_entry x) t es Hes) as (t'' & Hw & HP & _).
  rewrite H in Hw. injection Hw as <-.
  by rewrite lookup_path_snoc, HP, assoc_remove_entry_eq.
Qed.

Lemma detach_frame (p : path) (t t' : node) (q : path) :
  detach p t = Some t' → diverge p q → lookup_path t' q = lookup_path t q.
Proof.
  unfold detach. destruct (split_last p) as [[P x]|] eqn:E; simpl; [|done].
  apply split_last_Some in E as ->.
  intros H Hd. destruct (with_dir_inv _ _ _ _ H) as [es Hes].
  destruct (detach_spec P x t es Hes) as (t'' & Hw & _ & Hf).
  unfold detach in Hw. rewrite split_last_snoc in Hw. simpl in Hw.
  rewrite H in Hw. injection Hw as <-. by apply Hf.
Qed.

(** What [os.rmdir] does to the tree: nothing, or it takes an empty
    directory out. *)
Lemma os_rmdir_root (p : path) (w : world) :
  root (os_rmdir p w).2 = root w ∨
  (lookup_path (root w) p = Some (Dir []) ∧
   detach p (root w) = Some (root (os_rmdir p w).2)).
Proof.
  unfold os_rmdir, bind, log, get_root, put_root, raise. simpl.
  destruct (lookup_path (root w) p) as [[c|[|e es]]|] eqn:E; simpl;
    try by left.
  destruct (detach p (root w)) as [t'|] eqn:D; simpl; [by right|by left].
Qed.

(** A removal keeps what exists and is not under the removed directory. *)
Lemma os_rmdir_keeps (p D : path) (w : world) :
  is_Some (lookup_path (root w) D) → is_prefix D p = false →
  lookup_path (root (os_rmdir p w).2) D = lookup_path (root w) D.
Proof.
  intros HD Hp. destruct (os_rmdir_root p w) as [->|[Hemp Hdet]]; [done|].
  eapply detach_frame; [done|]. split; [|done].
  destruct (is_prefix p D) eqn:E; [|done]. exfalso.
  apply is_prefix_spec in E as [r ->]. rewrite lookup_path_app, Hemp in HD.
  destruct r as [|y r]; [by rewrite app_nil_r, is_prefix_refl in Hp|].
  simpl in HD. by destruct HD.
Qed.

(** A removal makes nothing. *)
Lemma os_rmdir_None (p q : path) (w : world) :
  lookup_path (root w) q = None →
  lookup_path (root (os_rmdir p w).2) q = None.
Proof.
  intros Hq. destruct (os_rmdir_root p w) as [->|[Hemp Hdet]]; [done|].
  destruct (path_cases p q) as [Hd|[[Hpre Hne]|Hpre]].
  - by rewrite (detach_frame _ _ _ _ Hdet Hd).
  - destruct (lookup_prefix_dir _ _ _ _ Hemp Hpre Hne) as [es Hes]. congruence.
  - eapply lookup_beyond_None; [|done]. by eapply lookup_detached.
Qed.

Lemma prune_Ok (ps : list path) (w : world) : (prune ps w).1 = Ok tt.
Proof.
  revert w. induction ps as [|q ps IH]; intros w; simpl; [done|].
  destruct (os_rmdir q w) as [[[]|e] w']; [apply IH|done].
Qed.

Lemma prune_keeps (ps : list path) (D : path) (w : world) :
  is_Some (lookup_path (root w) D) →
  (∀ q, q ∈ ps → is_prefix D q = false) →
  lookup_path (root (prune ps w).2) D = lookup_path (root w) D.
Proof.
  revert w. induction ps as [|q ps IH]; intros w HD Hps; simpl; [done|].
  pose proof (os_rmdir_keeps q D w HD (Hps q ltac:(left))) as Hk.
  destruct (os_rmdir q w) as [[[]|e] w']; simpl in *; [|done].
  rewrite IH; [done|by rewrite Hk|]. intros q' Hq'. apply Hps. by right.
Qed.

Lemma prune_None (ps : list path) (q : path) (w : world) :
  lookup_path (root w) q = None →
  lookup_path (root (prune ps w).2) q = None.
Proof.
  revert w. induction ps as [|p ps IH]; intros w Hq; simpl; [done|].
  pose proof (os_rmdir_None p q w Hq) as Hk.
  destruct (os_rmdir p w) as [[[]|e] w']; simpl in *; [by apply IH|done].
Qed.

Lemma diverge_nonempty (p q : path) : diverge p q → ∃ P x, p = P ++ [x].
Proof.
  intros [H _]. destruct p as [|y p] using rev_ind; [done|]. by exists p, y.
Qed.

Lemma not_under_ancestor (src dst q : path) :
  diverge src dst → q ∈ reverse (ancestors src) ++ [[]] →
  is_prefix dst q = false.
Proof.
  intros [H1 H2] Hq. destruct (is_prefix dst q) eqn:E; [|done]. exfalso.
  assert (is_prefix q src = true) as Hqs.
  { apply elem_of_app in Hq as [Hq|Hq].
    - rewrite elem_of_reverse in Hq. by apply elem_of_ancestors.
    - by apply list_elem_of_singleton in Hq as ->. }
  by rewrite (is_prefix_trans _ _ _ E Hqs) in H2.
Qed.

Lemma os_rmdir_nonempty (p : path) (w : world) e es :
  lookup_path (root w) p = Some (Dir (e :: es)) →
  os_rmdir p w =
  (Raise (OSError ENOTEMPTY p), mkWorld (root w) (trace w ++ [Rmdir p])).
Proof.
  intros H. unfold os_rmdir, bind, log, get_root, put_root, raise. simpl.
  by rewrite H.
Qed.

Lemma os_rmdir_empty (p : path) (w : world) :
  p ≠ [] → lookup_path (root w) p = Some (Dir []) →
  ∃ t', os_rmdir p w = (Ok tt, mkWorld t' (trace w ++ [Rmdir p])) ∧
        detach p (root w) = Some t'.
Proof.
  intros Hne H. destruct p as [|x P _] using rev_ind; [done|].
  assert (∃ es, lookup_path (root w) P = Some (Dir es)) as [es Hes].
  { eapply lookup_prefix_dir; [done|apply is_prefix_app|].
    intros E. apply (f_equal length) in E. rewrite length_app in E.
    simpl in E. lia. }
  destruct (detach_spec P x (root w) es Hes) as (t' & Hdet & _).
  exists t'. split; [|done].
  unfold os_rmdir, bind, log, get_root, put_root, raise. simpl.
  by rewrite H, Hdet.
Qed.

(** One entry moved by [os.renames] from a directory to another that has no
    entry of that name: the entry is appended there, and the directory it
    leaves is taken away once empty. *)
Lemma os_renames_fresh (src dst : path) (x : string) (n : node) (w : world)
    (rem acc : list (string * node)) :
  diverge src dst →
  lookup_path (root w) src = Some (Dir rem) → assoc x rem = Some n →
  lookup_path (root w) dst = Some (Dir acc) → x ∉ names acc →
  (os_renames (src ++ [x]) (dst ++ [x]) w).1 = Ok tt ∧
  lookup_path (root (os_renames (src ++ [x]) (dst ++ [x]) w).2) dst =
    Some (Dir (acc ++ [(x, n)])) ∧
  lookup_path (root (os_renames (src ++ [x]) (dst ++ [x]) w).2) src =
    pruned (remove_entry x rem).
Proof.
  intros Hdiv Hs Hx Hd Hfresh. destruct w as [t tr]. simpl in Hs, Hd.
  destruct (os_rename_fresh src dst x n t tr rem acc Hdiv Hs Hx Hd Hfresh)
    as (t1 & Hren & Hs1 & Hd1 & _).
  set (w1 := mkWorld t1 (tr ++ [Rename (src ++ [x]) (dst ++ [x])])) in *.
  assert (os_renames (src ++ [x]) (dst ++ [x]) (mkWorld t tr) =
          try_OSError (os_removedirs src) w1) as ->.
  { unfold os_renames. rewrite !parent_snoc.
    unfold bind at 1 2, os_path_exists, get_root, ret. unfold bind at 1. simpl.
    rewrite Hd. simpl. unfold bind at 1. by rewrite Hren. }
  assert (src ≠ []) as Hne.
  { destruct (diverge_nonempty _ _ Hdiv) as (P & y & ->). by destruct P. }
  unfold try_OSError.
  destruct (remove_entry x rem) as [|e r] eqn:R.
  - destruct (os_rmdir_empty src w1 Hne Hs1) as (t2 & Hrm & Hdet).
    set (w2 := mkWorld t2 (trace w1 ++ [Rmdir src])) in *.
    assert (os_removedirs src w1 = prune (reverse (ancestors src) ++ [[]]) w2)
      as ->.
    { unfold os_removedirs, bind. by rewrite Hrm. }
    pose proof (prune_Ok (reverse (ancestors src) ++ [[]]) w2) as HOk.
    assert (lookup_path (root w2) dst = Some (Dir (acc ++ [(x, n)]))) as Hd2.
    { simpl. by rewrite (detach_frame _ _ _ _ Hdet Hdiv). }
    pose proof (prune_keeps (reverse (ancestors src) ++ [[]]) dst w2
                  ltac:(by rewrite Hd2)
                  (λ q, not_under_ancestor src dst q Hdiv)) as Hk.
    pose proof (prune_None (reverse (ancestors src) ++ [[]]) src w2
                  (lookup_detached _ _ _ Hdet)) as Hn.
    destruct (prune _ w2) as [[[]|e] w3]; simpl in *; [|done].
    split_and!; [done| |done]. by rewrite Hk.
  - assert (os_removedirs src w1 =
            (Raise (OSError ENOTEMPTY src),
             mkWorld (root w1) (trace w1 ++ [Rmdir src]))) as ->.
    { unfold os_removedirs, bind. by rewrite (os_rmdir_nonempty src w1 e r Hs1). }
    simpl. by split_and!.
Qed.

Lemma assoc_elem_of (x : string) (n : node) es :
  NoDup (names es) → (x, n) ∈ es → assoc x es = Some n.
Proof.
  induction es as [|[y m] es IH]; intros Hnd Hin; [by inversion Hin|].
  simpl in *. apply NoDup_cons in Hnd as [Hy Hnd].
  apply elem_of_cons in Hin as [[= <- <-]|Hin].
  - by rewrite String.eqb_refl.
  - destruct (String.eqb x y) eqn:E; [|by apply IH].
    apply String.eqb_eq in E as ->. exfalso. apply Hy.
    apply list_elem_of_fmap. by exists (y, n).
Qed.

Lemma NoDup_names_filter (P : string * node → Prop) `{∀ e, Decision (P e)} es :
  NoDup (names es) → NoDup (names (filter P es)).
Proof.
  induction es as [|e es IH]; [done|]. simpl. intros [Hx Hnd]%NoDup_cons.
  rewrite filter_cons. destruct (decide (P e)); [|by apply IH].
  simpl. apply NoDup_cons. split; [|by apply IH].
  intros Hin. apply Hx. apply list_elem_of_fmap in Hin as (e' & -> & Hin).
  apply list_elem_of_fmap. exists e'. split; [done|].
  by apply list_elem_of_filter in Hin as [_ ?].
Qed.

Lemma remove_entry_filter (x : string) (mv mv' : list string)
    (rem : list (string * node)) :
  (∀ y, y ∈ mv' ↔ y = x ∨ y ∈ mv) →
  filter (λ e, e.1 ∉ mv) (remove_entry x rem) = filter (λ e, e.1 ∉ mv') rem.
Proof.
  intros Hmv. unfold remove_entry. induction rem as [|e rem IH]; [done|].
  rewrite !filter_cons.
  destruct (decide (e.1 ≠ x)) as [Hne|Heq].
  - rewrite filter_cons, IH.
    destruct (decide (e.1 ∉ mv)) as [H1|H1];
      destruct (decide (e.1 ∉ mv')) as [H2|H2]; try done.
    + exfalso. apply H2. intros [?|?]%Hmv; done.
    + exfalso. apply H1. intros ?. apply H2, Hmv. by right.
  - rewrite IH. destruct (decide (e.1 ∉ mv')) as [H2|H2]; [|done].
    exfalso. apply H2, Hmv. left. by apply dec_stable in Heq.
Qed.

Lemma filter_notin_nil (rem : list (string * node)) :
  filter (λ e, e.1 ∉ @nil string) rem = rem.
Proof.
  induction rem as [|e rem IH]; [done|]. rewrite filter_cons.
  destruct (decide (e.1 ∉ [])) as [?|H]; [by rewrite IH|].
  exfalso. apply H. by intros ?%elem_of_nil.
Qed.

Lemma remove_entry_single (x : string) (rem : list (string * node)) :
  remove_entry x rem = filter (λ e, e.1 ∉ [x]) rem.
Proof.
  rewrite <- (remove_entry_filter x [] [x]).
  - by rewrite filter_notin_nil.
  - intros y. rewrite list_elem_of_singleton. split; [by left|].
    by intros [?|?%elem_of_nil].
Qed.

Lemma elem_of_remove_entry (x : string) (e : string * node) rem :
  e ∈ rem → e.1 ≠ x → e ∈ remove_entry x rem.
Proof. intros. by apply list_elem_of_filter. Qed.

Lemma os_path_exists_fresh (dst : path) (x : string) (w : world) acc :
  lookup_path (root w) dst = Some (Dir acc) → x ∉ names acc →
  os_path_exists (dst ++ [x]) w = (Ok false, w).
Proof.
  intros Hd Hx. unfold os_path_exists, bind, get_root, ret. simpl.
  rewrite lookup_path_snoc, Hd. apply assoc_None in Hx. rewrite Hx.
  by rewrite bool_decide_eq_false_2 by (by intros [? ?]).
Qed.

Lemma delete_last {A} (l : list A) (x : A) : delete (length l) (l ++ [x]) = l.
Proof. induction l as [|a l IH]; [done|]. simpl. by rewrite IH. Qed.

(** The loop over the files of [unpack], where no name is in the
    destination. *)
Lemma move_files (src dst : path) :
  diverge src dst →
  ∀ mv rem acc w,
    NoDup (names rem) → NoDup (names mv) → (∀ e, e ∈ mv → e ∈ rem) →
    (∀ x, x ∈ names mv → x ∉ names acc) →
    lookup_path (root w) src = Some (Dir rem) →
    lookup_path (root w) dst = Some (Dir acc) →
    (mapM_ (λ f : string, os_renames (src ++ [f]) (dst ++ [] ++ [f]))
       (names mv) w).1 = Ok tt ∧
    lookup_path
      (root (mapM_ (λ f : string, os_renames (src ++ [f]) (dst ++ [] ++ [f]))
               (names mv) w).2) dst = Some (Dir (acc ++ mv)) ∧
    lookup_path
      (root (mapM_ (λ f : string, os_renames (src ++ [f]) (dst ++ [] ++ [f]))
               (names mv) w).2) src =
      match mv with
      | [] => Some (Dir rem)
      | _ => pruned (filter (λ e, e.1 ∉ names mv) rem)
      end.
Proof.
  intros Hdiv mv. induction mv as [|[x n] mv IH];
    intros rem acc w Nrem Nmv Hsub Hfresh Hs Hd.
  - simpl. by rewrite app_nil_r.
  - cbn [names map fst] in *. rewrite !mapM__cons. cbn [app].
    apply NoDup_cons in Nmv as [Hx Nmv].
    destruct (os_renames_fresh src dst x n w rem acc Hdiv Hs) as (HOk & Hd1 & Hs1);
      [apply assoc_elem_of; [done|]; apply Hsub; by left|done|
       apply Hfresh; by left|].
    destruct (os_renames (src ++ [x]) (dst ++ [x]) w) as [[[]|e] w1];
      simpl in HOk, Hd1, Hs1; [|done].
    cbv beta iota.
    destruct mv as [|e1 mv1].
    + simpl. split_and!; [done..|]. by rewrite Hs1, remove_entry_single.
    + assert (e1 ∈ remove_entry x rem) as He1.
      { apply elem_of_remove_entry; [apply Hsub; right; by left|].
        intros E. apply Hx. rewrite <- E. by left. }
      assert (pruned (remove_entry x rem) = Some (Dir (remove_entry x rem)))
        as Hpr.
      { destruct (remove_entry x rem); [by inversion He1|done]. }
      rewrite Hpr in Hs1.
      destruct (IH (remove_entry x rem) (acc ++ [(x, n)]) w1) as (H1 & H2 & H3);
        [by apply NoDup_names_filter|done| | |done|done|].
      * intros e He. apply elem_of_remove_entry; [apply Hsub; by right|].
        intros E. apply Hx. rewrite <- E. apply list_elem_of_fmap. by exists e.
      * intros y Hy. unfold names. rewrite fmap_app. simpl.
        intros [Hin|Hin%list_elem_of_singleton]%elem_of_app.
        -- by apply (Hfresh y); [right|].
        -- by subst.
      * rewrite <- app_assoc in H2.
        split_and!; [exact H1|exact H2|]. etrans; [exact H3|].
        f_equal. apply remove_entry_filter.
        intros y. by rewrite elem_of_cons.
Qed.

Lemma unpack_dirs_snoc (dst_dir dirpath subdir : path) (l : list string)
    (d : string) :
  unpack_dirs dst_dir dirpath subdir (reverse (imap pair (l ++ [d])))
    (l ++ [d]) =
  do e <- os_path_exists (dst_dir ++ subdir ++ [d]);
  if negb e then
    os_renames (dirpath ++ [d]) (dst_dir ++ subdir ++ [d]) >>>
    unpack_dirs dst_dir dirpath subdir (reverse (imap pair l)) l
  else unpack_dirs dst_dir dirpath subdir (reverse (imap pair l)) (l ++ [d]).
Proof.
  rewrite imap_app, reverse_app. simpl. by rewrite Nat.add_0_r, delete_last.
Qed.

Lemma unpack_dirs_fresh (dst_dir dirpath : path) (l : list string)
    (d : string) (w : world) acc :
  lookup_path (root w) dst_dir = Some (Dir acc) → d ∉ names acc →
  unpack_dirs dst_dir dirpath [] (reverse (imap pair (l ++ [d]))) (l ++ [d]) w =
  match os_renames (dirpath ++ [d]) (dst_dir ++ [d]) w with
  | (Ok _, w1) => unpack_dirs dst_dir dirpath [] (reverse (imap pair l)) l w1
  | (Raise e, w1) => (Raise e, w1)
  end.
Proof.
  intros Hd Hx. rewrite unpack_dirs_snoc. unfold bind at 1. cbn [app].
  rewrite (os_path_exists_fresh dst_dir d w acc Hd Hx). reflexivity.
Qed.

(** The loop over the directories of [unpack], where no name is in the
    destination: all are moved, last first, and none is left to walk into. *)
Lemma move_dirs (src dst : path) :
  diverge src dst →
  ∀ dl rem acc w,
    dl ≠ [] →
    NoDup (names rem) → NoDup (names dl) → (∀ e, e ∈ dl → e ∈ rem) →
    (∀ x, x ∈ names dl → x ∉ names acc) →
    lookup_path (root w) src = Some (Dir rem) →
    lookup_path (root w) dst = Some (Dir acc) →
    (unpack_dirs dst src [] (reverse (imap pair (names dl))) (names dl) w).1
      = Ok [] ∧
    lookup_path
      (root (unpack_dirs dst src [] (reverse (imap pair (names dl)))
               (names dl) w).2) dst = Some (Dir (acc ++ reverse dl)) ∧
    lookup_path
      (root (unpack_dirs dst src [] (reverse (imap pair (names dl)))
               (names dl) w).2) src =
      pruned (filter (λ e, e.1 ∉ names dl) rem).
Proof.
  intros Hdiv dl. induction dl as [|[x n] dl IH] using rev_ind;
    intros rem acc w Hne Nrem Ndl Hsub Hfresh Hs Hd; [done|].
  assert (names (dl ++ [(x, n)]) = names dl ++ [x]) as Hn.
  { unfold names. by rewrite map_app. }
  rewrite Hn in *.
  rewrite !(unpack_dirs_fresh dst src (names dl) x w acc Hd)
    by (apply Hfresh, elem_of_app; right; by left).
  apply NoDup_app in Ndl as (Ndl & Hx & _).
  assert (x ∉ names dl) as Hx'.
  { intros Hin. apply (Hx x Hin). by left. }
  destruct (os_renames_fresh src dst x n w rem acc Hdiv Hs) as (HOk & Hd1 & Hs1);
    [apply assoc_elem_of; [done|]; apply Hsub, elem_of_app; right; by left|done|
     apply Hfresh, elem_of_app; right; by left|].
  destruct (os_renames (src ++ [x]) (dst ++ [x]) w) as [[[]|e] w1];
    simpl in HOk, Hd1, Hs1; [|done].
  rewrite reverse_app. cbn [reverse rev_append app].
  destruct (decide (dl = [])) as [->|Hdl].
  - simpl. split_and!; [done..|]. by rewrite Hs1, remove_entry_single.
  - assert (∃ e1, e1 ∈ dl) as [e1 He1].
    { destruct dl as [|e1 ?]; [done|]. exists e1. by left. }
    assert (e1 ∈ remove_entry x rem) as He1'.
    { apply elem_of_remove_entry; [apply Hsub, elem_of_app; by left|].
      intros E. apply Hx'. rewrite <- E. apply list_elem_of_fmap. by exists e1. }
    assert (pruned (remove_entry x rem) = Some (Dir (remove_entry x rem)))
      as Hpr.
    { destruct (remove_entry x rem); [by inversion He1'|done]. }
    rewrite Hpr in Hs1.
    destruct (IH (remove_entry x rem) (acc ++ [(x, n)]) w1) as (H1 & H2 & H3);
      [done|by apply NoDup_names_filter|done| | |done|done|].
    + intros e He. apply elem_of_remove_entry; [apply Hsub, elem_of_app; by left|].
      intros E. apply Hx'. rewrite <- E. apply list_elem_of_fmap. by exists e.
    + intros y Hy. unfold names. rewrite fmap_app. simpl.
      intros [Hin|Hin%list_elem_of_singleton]%elem_of_app.
      * by apply (Hfresh y); [apply elem_of_app; left|].
      * by subst.
    + rewrite <- app_assoc in H2.
      split_and!; [exact H1|exact H2|]. etrans; [exact H3|].
      f_equal. apply remove_entry_filter.
      intros y. rewrite elem_of_app, list_elem_of_singleton. tauto.
Qed.

Lemma no_entry_left (es : list (string * node)) :
  filter (λ e, e.1 ∉ names (filter (λ e, is_dir e.2) es))
    (filter (λ e, e.1 ∉ names (filter (λ e, negb (is_dir e.2)) es)) es) = [].
Proof.
  destruct (filter _ (filter _ es)) as [|e l] eqn:E; [done|]. exfalso.
  assert (e ∈ e :: l) as Hin by left. rewrite <- E in Hin.
  apply list_elem_of_filter in Hin as [H1 Hin].
  apply list_elem_of_filter in Hin as [H2 Hin].
  destruct (is_dir e.2) eqn:Hdir.
  - apply H1, list_elem_of_fmap. exists e. split; [done|].
    apply list_elem_of_filter. by rewrite Hdir.
  - apply H2, list_elem_of_fmap. exists e. split; [done|].
    apply list_elem_of_filter. by rewrite Hdir.
Qed.

Lemma os_walk_dir (limit : nat) body (top : path) (w : world) es :
  lookup_path (root w) top = Some (Dir es) →
  os_walk (S limit) body top w =
  (do dirnames <- body top (map fst (filter (λ e, is_dir e.2) es))
                    (map fst (filter (λ e, negb (is_dir e.2)) es));
   mapM_ (λ d : string, os_walk limit body (top ++ [d])) dirnames) w.
Proof.
  intros H. cbn [os_walk]. unfold bind at 1, get_root. by rewrite H.
Qed.

Lemma os_walk_missing (limit : nat) body (top : path) (w : world) :
  lookup_path (root w) top = None → os_walk (S limit) body top w = (Ok tt, w).
Proof.
  intros H. cbn [os_walk]. unfold bind at 1, get_root. by rewrite H.
Qed.

(** The first walk of [unpack] over a directory none of whose entries is in
    the destination. *)
Lemma unpack_move_fresh (src dst : path) (w : world) es acc :
  diverge src dst →
  lookup_path (root w) src = Some (Dir es) → NoDup (names es) →
  lookup_path (root w) dst = Some (Dir acc) →
  (∀ x, x ∈ names es → x ∉ names acc) →
  ∃ w1,
    unpack_move src dst src (map fst (filter (λ e, is_dir e.2) es))
      (map fst (filter (λ e, negb (is_dir e.2)) es)) w = (Ok [], w1) ∧
    lookup_path (root w1) dst =
      Some (Dir (acc ++ filter (λ e, negb (is_dir e.2)) es ++
                 reverse (filter (λ e, is_dir e.2) es))) ∧
    lookup_path (root w1) src =
      match es with [] => Some (Dir []) | _ => None end.
Proof.
  intros Hdiv Hs Nes Hd Hfresh.
  set (fl := filter (λ e, negb (is_dir e.2)) es).
  set (dl := filter (λ e, is_dir e.2) es).
  set (rem := filter (λ e, e.1 ∉ names fl) es).
  assert (∀ e, e ∈ fl → e ∈ es) as Hfl.
  { intros e He. by apply list_elem_of_filter in He as [_ ?]. }
  assert (∀ e, e ∈ dl → e ∈ es) as Hdl.
  { intros e He. by apply list_elem_of_filter in He as [_ ?]. }
  assert (∀ e, e ∈ dl → e ∈ rem) as Hdl'.
  { intros e He. apply list_elem_of_filter. split; [|by apply Hdl].
    intros (e' & E & He')%list_elem_of_fmap.
    assert (e = e') as <-.
    { destruct e as [x n], e' as [x' n']. simpl in E. subst x'. f_equal.
      apply Hdl, (assoc_elem_of _ _ _ Nes) in He.
      apply Hfl, (assoc_elem_of _ _ _ Nes) in He'. congruence. }
    apply list_elem_of_filter in He as [He _].
    apply list_elem_of_filter in He' as [He' _].
    by destruct (is_dir e.2). }
  unfold unpack_move, relpath. rewrite drop_all.
  fold (names fl). fold (names dl).
  destruct (move_files src dst Hdiv fl es acc w) as (HOk & Hd1 & Hs1);
    [done|by apply NoDup_names_filter|done| |done|done|].
  { intros x (e & -> & He)%list_elem_of_fmap. apply Hfresh.
    apply list_elem_of_fmap. exists e. split; [done|by apply Hfl]. }
  unfold bind at 1.
  destruct (mapM_ _ (names fl) w) as [[[]|e] w1]; simpl in HOk, Hd1, Hs1;
    [|done].
  fold rem in Hs1.
  assert (filter (λ e, e.1 ∉ names dl) rem = []) as Hleft
    by apply no_entry_left.
  destruct (decide (dl = [])) as [Edl|Ndl].
  - rewrite Edl in *. simpl. exists w1. split; [done|].
    rewrite filter_notin_nil in Hleft. rewrite Hleft in Hs1.
    rewrite app_nil_r. split; [done|]. rewrite Hs1.
    destruct es as [|e0 es0]; [done|]. destruct fl as [|f0 fl0] eqn:Efl; [|done].
    exfalso. assert (e0 ∈ e0 :: es0) as Hin by left.
    destruct (is_dir e0.2) eqn:Hdir.
    + assert (e0 ∈ filter (λ e, is_dir e.2) (e0 :: es0)) as Hin'.
      { apply list_elem_of_filter. by rewrite Hdir. }
      fold dl in Hin'. rewrite Edl in Hin'. by inversion Hin'.
    + assert (e0 ∈ filter (λ e, negb (is_dir e.2)) (e0 :: es0)) as Hin'.
      { apply list_elem_of_filter. by rewrite Hdir. }
      unfold fl in Efl. rewrite Efl in Hin'. by inversion Hin'.
  - assert (rem ≠ []) as Nrem.
    { destruct dl as [|e1 ?] eqn:E; [done|].
      intros Er. specialize (Hdl' e1 ltac:(left)). rewrite Er in Hdl'.
      by inversion Hdl'. }
    assert (lookup_path (root w1) src = Some (Dir rem)) as Hs1'.
    { rewrite Hs1. destruct fl as [|f0 fl0] eqn:Efl.
      - unfold rem. by rewrite filter_notin_nil.
      - by destruct rem. }
    destruct (move_dirs src dst Hdiv dl rem (acc ++ fl) w1) as (H1 & H2 & H3);
      [done|by apply NoDup_names_filter|by apply NoDup_names_filter|done|
       |done|done|].
    { intros x (e & -> & He)%list_elem_of_fmap. unfold names.
      rewrite fmap_app.
      intros [Hin|Hin]%elem_of_app.
      - revert Hin. apply Hfresh. apply list_elem_of_fmap. exists e.
        split; [done|by apply Hdl].
      - apply Hdl', list_elem_of_filter in He as [He _]. by apply He. }
    destruct (unpack_dirs _ _ _ _ _ w1) as [r w2]. simpl in H1, H2, H3.
    subst r. exists w2. split; [done|]. rewrite <- app_assoc in H2.
    split; [done|]. rewrite H3, Hleft. simpl.
    destruct es as [|e0 es0]; [|done]. by destruct Ndl.
Qed.

(** X9: when [src_dir] and [dst_dir] are directories neither of which lies
    in the other and no entry of [src_dir] has its name in [dst_dir],
    [unpack] returns, [src_dir] is gone, and [dst_dir] holds what it held
    followed by the files of [src_dir] in order and its directories, whole,
    last first. *)
Theorem unpack_fresh (limit : nat) (src_dir dst_dir : path) (w : world)
    (es acc : list (string * node)) :
  diverge src_dir dst_dir →
  lookup_path (root w) src_dir = Some (Dir es) → NoDup (names es) →
  lookup_path (root w) dst_dir = Some (Dir acc) →
  (∀ x, x ∈ names es → x ∉ names acc) →
  (unpack (S limit) src_dir dst_dir w).1 = Ok tt ∧
  lookup_path (root (unpack (S limit) src_dir dst_dir w).2) src_dir = None ∧
  lookup_path (root (unpack (S limit) src_dir dst_dir w).2) dst_dir =
    Some (Dir (acc ++ filter (λ e, negb (is_dir e.2)) es ++
               reverse (filter (λ e, is_dir e.2) es))).
Proof.
  intros Hdiv Hs Nes Hd Hfresh.
  destruct (unpack_move_fresh src_dir dst_dir w es acc Hdiv Hs Nes Hd Hfresh)
    as (w1 & Hmv & Hd1 & Hs1).
  assert (os_walk (S limit) (unpack_move src_dir dst_dir) src_dir w =
          (Ok tt, w1)) as H1.
  { rewrite (os_walk_dir _ _ _ _ es Hs). unfold bind. by rewrite Hmv. }
  assert (unpack (S limit) src_dir dst_dir w =
          os_walk (S limit) unpack_cleanup src_dir w1) as ->.
  { unfold unpack, bind. by rewrite H1. }
  destruct es as [|e0 es0].
  - assert (src_dir ≠ []) as Hne.
    { destruct (diverge_nonempty _ _ Hdiv) as (P & y & ->). by destruct P. }
    destruct (os_rmdir_empty src_dir w1 Hne Hs1) as (t2 & Hrm & Hdet).
    rewrite (os_walk_dir _ _ _ _ [] Hs1). unfold unpack_cleanup, bind, ret.
    simpl. rewrite Hrm. simpl. split_and!; [done| |].
    + by eapply lookup_detached.
    + by rewrite (detach_frame _ _ _ _ Hdet Hdiv).
  - rewrite (os_walk_missing _ _ _ _ Hs1). by split_and!.
Qed.

Lemma unpack_fresh_witness :
  (unpack 1 ["purelib"] ["egg"] example_unpack_world).1 = Ok tt ∧
  lookup_path (root (unpack 1 ["purelib"] ["egg"] example_unpack_world).2)
    ["purelib"] = None ∧
  lookup_path (root (unpack 1 ["purelib"] ["egg"] example_unpack_world).2)
    ["egg"] =
    Some (Dir ([("EGG-INFO", Dir [])] ++
               filter (λ e, negb (is_dir e.2))
                 [("pkg", Dir [("__init__.py", File "")]);
                  ("mod.py", File "x = 1")] ++
               reverse (filter (λ e, is_dir e.2)
                 [("pkg", Dir [("__init__.py", File "")]);
                  ("mod.py", File "x = 1")]))).
Proof.
  apply (unpack_fresh 0 ["purelib"] ["egg"] example_unpack_world).
  - by split.
  - reflexivity.
  - by_decide.
  - reflexivity.
  - apply (Forall_forall (λ y, y ∉ names [("EGG-INFO", Dir [])])). by_decide.
Defined.

Lemma os_walk_not_dir (limit : nat) body (top : path) (w : world) :
  (∀ es, lookup_path (root w) top ≠ Some (Dir es)) →
  os_walk (S limit) body top w = (Ok tt, w).
Proof.
  intros H. cbn [os_walk]. unfold bind at 1, get_root.
  destruct (lookup_path (root w) top) as [[c|es]|] eqn:E; try done.
  by destruct (H es).
Qed.

(** X10: when [src_dir] does not name a directory, because nothing is there
    or a file is, [unpack] returns at once: it makes no call that changes the
    file system and raises nothing, [os.walk] passing over what it cannot
    list. *)
Theorem unpack_not_a_directory (limit : nat) (src_dir dst_dir : path)
    (w : world) :
  (∀ es, lookup_path (root w) src_dir ≠ Some (Dir es)) →
  unpack (S limit) src_dir dst_dir w = (Ok tt, w).
Proof.
  intros H. unfold unpack, bind. by rewrite !os_walk_not_dir.
Qed.

Lemma unpack_not_a_directory_witness :
  unpack 1 ["purelib"; "mod.py"] ["egg"] example_unpack_world =
  (Ok tt, example_unpack_world).
Proof.
  apply (unpack_not_a_directory 0 ["purelib"; "mod.py"] ["egg"]).
  intros es. vm_compute. discriminate.
Defined.
